(** * Progress reporters of the workbench (progressService.ts)

    A shallow embedding of [ScopedProgressService] and [ProgressService]
    together with the part of the JavaScript run time their behaviour
    depends on: the clock read by [Date.now()], promise identity, promise
    settlement, [then], [Promise.all] and the microtask queue.

    Numbers are modelled as integers ([Z]); the optional [delay] argument
    is an [option Z] ([None] is [undefined]).  The progress bar widget is
    not part of the sources: the reporters only call its methods, so a
    widget is represented by the chronological list of calls it received,
    each stamped with the time of the call, and its one query, [hasTotal()],
    is an interface member answered from that list. *)

From Stdlib Require Import ZArith Lia String.
From stdpp Require Import base list.

(** ** Data model *)

(** A promise is known by its identity (reference equality in the source). *)
Abbreviation PromiseId := nat (only parsing).

(** The states of the tagged union [ProgressState].  The constructor of
    [WhileProgressState] takes, in this order, [whilePromise], [whileStart]
    and [whileDelay]. *)
Inductive ProgressState :=
| NoneProgressState
| DoneProgressState
| InfiniteProgressState
| WhileProgressState (whilePromise : PromiseId) (whileStart whileDelay : Z)
| WorkProgressState (total worked : option Z).

(** The methods of the widget the reporters call.  [BarShow d] is
    [show(d)], [BarShow None] is [show()]. *)
Inductive BarCall :=
| BarInfinite
| BarTotal (value : Z)
| BarWorked (value : Z)
| BarShow (delay : option Z)
| BarStop
| BarHide.

(** What a widget has received: calls in chronological order, each with the
    value of the clock when it was made. *)
Definition BarLog := list (Z * BarCall).

(** The query [progressbar.hasTotal()].  Its body is not in the sources, so
    it is an interface member: any function of what the widget received. *)
Class ProgressBar := hasTotal : BarLog -> bool.

(** The first argument of [show]: a boolean or a number. *)
Inductive InfiniteOrTotal :=
| ArgBoolean (infinite : bool)
| ArgNumber (total : Z).

(** The [scopeId] handed to the constructor.  It is typed [string], but the
    constructor tests it for [undefined] and [null], so both are values. *)
Inductive ScopeId :=
| ScopeUndefined
| ScopeNull
| ScopeString (id : string).

(** ** Promises *)

Inductive Outcome := Fulfilled | Rejected.

Inductive PromiseStatus := Pending | Settled (o : Outcome).

(** How a promise came to be: made by the caller of the reporter
    ([External], settled by the environment), returned by [then], or
    returned by [Promise.all]. *)
Inductive PromiseOrigin := External | FromThen | FromAll.

(** The functions that are ever passed to [then]:
    - [ScopedStop promise]: the closure [stop] built by
      [ScopedProgressService.showWhile]; it captures the local [promise];
    - [UnscopedStop]: the closure [stop] of [ProgressService.showWhile];
    - [AllResolveElement j], [AllReject j]: the two functions
      [Promise.all] attaches to each of its elements, for the promise [j]
      it returned. *)
Inductive Callback :=
| ScopedStop (promise : PromiseId)
| UnscopedStop
| AllResolveElement (j : PromiseId)
| AllReject (j : PromiseId).

(** One [then(onFulfilled, onRejected)] registration and the promise that
    [then] call returned. *)
Record Reaction := mkReaction {
  onFulfilled : Callback;
  onRejected : Callback;
  derived : PromiseId
}.

(** A queued microtask: run [handler], then fulfil [target] with what it
    returned. *)
Record Job := mkJob {
  handler : Callback;
  target : PromiseId
}.

Record Promise := mkPromise {
  status : PromiseStatus;
  reactions : list Reaction;
  origin : PromiseOrigin;
  remaining : nat   (* elements [Promise.all] still waits for *)
}.

(** ** The world: clock, promise store, microtask queue, both reporters *)

Record World := mkWorld {
  now : Z;                        (* what [Date.now()] returns *)
  promises : list Promise;        (* indexed by [PromiseId] *)
  jobs : list Job;                (* microtask queue, oldest first *)
  scopeId : ScopeId;              (* ScopedService.scopeId *)
  isActive : bool;                (* ScopedProgressService.isActive *)
  progressState : ProgressState;  (* ScopedProgressService.progressState *)
  progressbar : BarLog;           (* widget of the scoped reporter *)
  unscopedbar : BarLog            (* widget of the unscoped reporter *)
}.

Definition set_now (t : Z) (w : World) : World :=
  mkWorld t (promises w) (jobs w) (scopeId w) (isActive w)
          (progressState w) (progressbar w) (unscopedbar w).

Definition set_promises (ps : list Promise) (w : World) : World :=
  mkWorld (now w) ps (jobs w) (scopeId w) (isActive w)
          (progressState w) (progressbar w) (unscopedbar w).

Definition set_jobs (js : list Job) (w : World) : World :=
  mkWorld (now w) (promises w) js (scopeId w) (isActive w)
          (progressState w) (progressbar w) (unscopedbar w).

Definition set_isActive (b : bool) (w : World) : World :=
  mkWorld (now w) (promises w) (jobs w) (scopeId w) b
          (progressState w) (progressbar w) (unscopedbar w).

Definition set_progressState (s : ProgressState) (w : World) : World :=
  mkWorld (now w) (promises w) (jobs w) (scopeId w) (isActive w)
          s (progressbar w) (unscopedbar w).

(** A call on the scoped reporter's widget, stamped with the clock. *)
Definition bar (c : BarCall) (w : World) : World :=
  mkWorld (now w) (promises w) (jobs w) (scopeId w) (isActive w)
          (progressState w) (progressbar w ++ [(now w, c)]) (unscopedbar w).

(** A call on the unscoped reporter's widget. *)
Definition ubar (c : BarCall) (w : World) : World :=
  mkWorld (now w) (promises w) (jobs w) (scopeId w) (isActive w)
          (progressState w) (progressbar w) (unscopedbar w ++ [(now w, c)]).

(** [Date.now()] *)
Definition Date_now (w : World) : Z := now w.

Definition status_of (w : World) (p : PromiseId) : option PromiseStatus :=
  status <$> promises w !! p.

Definition origin_of (w : World) (p : PromiseId) : option PromiseOrigin :=
  origin <$> promises w !! p.

(** The two halves of a world: what the reporters own besides the clock,
    and what the promise machinery owns. *)
Definition reporter_view (w : World) :=
  (now w, scopeId w, isActive w, progressState w, progressbar w, unscopedbar w).

Definition store_view (w : World) := (promises w, jobs w).

(** A new pending promise; its identity is the next free index. *)
Definition new_promise (o : PromiseOrigin) (n : nat) (w : World)
  : PromiseId * World :=
  (length (promises w),
   set_promises (promises w ++ [mkPromise Pending [] o n]) w).

(** The job a settled promise queues for one of its reactions. *)
Definition reaction_job (o : Outcome) (r : Reaction) : Job :=
  match o with
  | Fulfilled => mkJob (onFulfilled r) (derived r)
  | Rejected => mkJob (onRejected r) (derived r)
  end.

(** Settling: only a pending promise changes; its reactions are queued in
    registration order and dropped from the promise. *)
Definition settle (p : PromiseId) (o : Outcome) (w : World) : World :=
  match promises w !! p with
  | Some c =>
      match status c with
      | Pending =>
          set_jobs (jobs w ++ (reaction_job o <$> reactions c))
            (set_promises
               (<[p := mkPromise (Settled o) [] (origin c) (remaining c)]>
                  (promises w)) w)
      | Settled _ => w
      end
  | None => w
  end.

(** [p.then(onF, onR)]: a new promise [d] is returned; on a pending [p] the
    reaction is appended, on a settled [p] the matching job is queued. *)
Definition promise_then (p : PromiseId) (onF onR : Callback) (w : World)
  : PromiseId * World :=
  let (d, w1) := new_promise FromThen 0 w in
  match promises w1 !! p with
  | Some c =>
      match status c with
      | Pending =>
          (d, set_promises
                (<[p := mkPromise Pending (reactions c ++ [mkReaction onF onR d])
                                  (origin c) (remaining c)]> (promises w1)) w1)
      | Settled o =>
          (d, set_jobs (jobs w1 ++ [reaction_job o (mkReaction onF onR d)]) w1)
      end
  | None => (d, w1)
  end.

(** [Promise.all([a, b])]: the returned promise [j] waits for two elements;
    each element gets [then(resolveElement, reject)], first [a], then [b]. *)
Definition Promise_all (a b : PromiseId) (w : World) : PromiseId * World :=
  let (j, w1) := new_promise FromAll 2 w in
  let (_, w2) := promise_then a (AllResolveElement j) (AllReject j) w1 in
  let (_, w3) := promise_then b (AllResolveElement j) (AllReject j) w2 in
  (j, w3).

(** The element function of [Promise.all]: one element less to wait for;
    the last one fulfils [j]. *)
Definition all_resolve_element (j : PromiseId) (w : World) : World :=
  match promises w !! j with
  | Some c =>
      let n := pred (remaining c) in
      let w1 :=
        set_promises
          (<[j := mkPromise (status c) (reactions c) (origin c) n]> (promises w)) w in
      match n with
      | O => settle j Fulfilled w1
      | S _ => w1
      end
  | None => w
  end.

(** ** ScopedService and ScopedProgressService *)

(** Modelled from the spec: [types.isUndefinedOrNull] (vs/base/common/types)
    is imported by the source but its body is not part of it.  As its name
    says, it answers true on [undefined] and on [null], and false on every
    string, the empty string included. *)
Definition isUndefinedOrNull (s : ScopeId) : bool :=
  match s with
  | ScopeUndefined | ScopeNull => true
  | ScopeString _ => false
  end.

(** JavaScript truthiness of a [number | undefined] field. *)
Definition truthy (v : option Z) : bool :=
  match v with
  | Some z => negb (z =? 0)%Z
  | None => false
  end.

(** [delay || 0] *)
Definition or_zero (delay : option Z) : Z :=
  match delay with
  | Some d => d
  | None => 0%Z
  end.

Module ScopedProgressService.

(** The constructor: [progressState] starts at [NoneProgressState] and
    [isActive] is [isActive || types.isUndefinedOrNull(scopeId)].  The
    world handed in provides the clock, the promises and the widget. *)
Definition constructor (sid : ScopeId) (active : bool) (w : World) : World :=
  mkWorld (now w) (promises w) (jobs w) sid
          (active || isUndefinedOrNull sid) NoneProgressState
          (progressbar w) (unscopedbar w).

Definition onScopeDeactivated (w : World) : World :=
  set_isActive false w.

Definition doShowWhile (delay : option Z) (w : World) : World :=
  if isActive w then bar (BarShow delay) (bar BarInfinite w) else w.

Definition onScopeActivated (w : World) : World :=
  let w := set_isActive true w in
  match progressState w with
  | DoneProgressState => w
  | WhileProgressState _ whileStart whileDelay =>
      let delay :=
        if (0 <? whileDelay)%Z then
          let remainingDelay := (whileDelay - (Date_now w - whileStart))%Z in
          if (0 <? remainingDelay)%Z then Some remainingDelay else None
        else None in
      doShowWhile delay w
  | InfiniteProgressState => bar (BarShow None) (bar BarInfinite w)
  | WorkProgressState total worked =>
      let w :=
        match total with
        | Some t => if truthy total then bar (BarShow None) (bar (BarTotal t) w) else w
        | None => w
        end in
      match worked with
      | Some k => if truthy worked then bar (BarShow None) (bar (BarWorked k) w) else w
      | None => w
      end
  | NoneProgressState => w
  end.

(** [onScopeOpened] and [onScopeClosed] of the base class: the event's
    scope id is a string and is compared with [===]. *)
Definition same_scope (id : string) (w : World) : bool :=
  match scopeId w with
  | ScopeString mine => String.eqb id mine
  | _ => false
  end.

Definition onScopeOpened (id : string) (w : World) : World :=
  if same_scope id w then onScopeActivated w else w.

Definition onScopeClosed (id : string) (w : World) : World :=
  if same_scope id w then onScopeDeactivated w else w.

Definition show (infiniteOrTotal : InfiniteOrTotal) (delay : option Z)
           (w : World) : World :=
  let w :=
    match infiniteOrTotal with
    | ArgBoolean _ => set_progressState InfiniteProgressState w
    | ArgNumber t => set_progressState (WorkProgressState (Some t) None) w
    end in
  if isActive w then
    match progressState w with
    | InfiniteProgressState => bar (BarShow delay) (bar BarInfinite w)
    | WorkProgressState (Some t) _ => bar (BarShow delay) (bar (BarTotal t) w)
    | _ => w
    end
  else w.

(** The three closures of the handle [show] returns.  They capture
    nothing but [this], so every handle of a reporter behaves alike. *)
Definition handle_total (total : Z) (w : World) : World :=
  let w :=
    set_progressState
      (WorkProgressState (Some total)
         match progressState w with
         | WorkProgressState _ worked => worked
         | _ => None
         end) w in
  if isActive w then bar (BarTotal total) w else w.

Definition handle_worked `{ProgressBar} (worked : Z) (w : World) : World :=
  if negb (isActive w) || hasTotal (progressbar w) then
    let w :=
      set_progressState
        (WorkProgressState
           match progressState w with
           | WorkProgressState total _ => total
           | _ => None
           end
           match progressState w with
           | WorkProgressState _ (Some k) => Some (k + worked)%Z
           | _ => Some worked
           end) w in
    if isActive w then bar (BarWorked worked) w else w
  else
    bar (BarShow None) (bar BarInfinite (set_progressState InfiniteProgressState w)).

Definition handle_done (w : World) : World :=
  let w := set_progressState DoneProgressState w in
  if isActive w then bar BarHide (bar BarStop w) else w.

(** The closure [stop] of [showWhile]; [promise] is the captured local,
    after the join. *)
Definition stop (promise : PromiseId) (w : World) : World :=
  let proceed :=
    let w := set_progressState NoneProgressState w in
    if isActive w then bar BarHide (bar BarStop w) else w in
  match progressState w with
  | WhileProgressState whilePromise _ _ =>
      if negb (whilePromise =? promise) then w else proceed
  | _ => proceed
  end.

(** [showWhile].  First the join: when the state is a [While], the local
    [promise] becomes [Promise.all([promise, whilePromise])].  Then the
    state is built by [new WhileProgressState(promise, delay || 0,
    Date.now())], arguments in this order, and the promise returned is
    [promise.then(stop, stop)]. *)
Definition join_running (promise : PromiseId) (w : World)
  : PromiseId * World :=
  match progressState w with
  | WhileProgressState whilePromise _ _ => Promise_all promise whilePromise w
  | _ => (promise, w)
  end.

Definition showWhile (promise : PromiseId) (delay : option Z) (w : World)
  : PromiseId * World :=
  let (promise, w) := join_running promise w in
  let w :=
    set_progressState
      (WhileProgressState promise (or_zero delay) (Date_now w)) w in
  let w := doShowWhile delay w in
  promise_then promise (ScopedStop promise) (ScopedStop promise) w.

End ScopedProgressService.

(** ** ProgressService (the unscoped reporter) *)

Module ProgressService.

Definition show (infiniteOrTotal : InfiniteOrTotal) (delay : option Z)
           (w : World) : World :=
  match infiniteOrTotal with
  | ArgBoolean _ => ubar (BarShow delay) (ubar BarInfinite w)
  | ArgNumber t => ubar (BarShow delay) (ubar (BarTotal t) w)
  end.

Definition handle_total (total : Z) (w : World) : World :=
  ubar (BarTotal total) w.

Definition handle_worked `{ProgressBar} (worked : Z) (w : World) : World :=
  if hasTotal (unscopedbar w) then ubar (BarWorked worked) w
  else ubar (BarShow None) (ubar BarInfinite w).

Definition handle_done (w : World) : World :=
  ubar BarHide (ubar BarStop w).

Definition stop (w : World) : World :=
  ubar BarHide (ubar BarStop w).

Definition showWhile (promise : PromiseId) (delay : option Z) (w : World)
  : PromiseId * World :=
  let w := ubar (BarShow delay) (ubar BarInfinite w) in
  promise_then promise UnscopedStop UnscopedStop w.

End ProgressService.

(** ** Microtasks *)

Definition run_callback (cb : Callback) (w : World) : World :=
  match cb with
  | ScopedStop promise => ScopedProgressService.stop promise w
  | UnscopedStop => ProgressService.stop w
  | AllResolveElement j => all_resolve_element j w
  | AllReject j => settle j Rejected w
  end.

(** None of the callbacks throws: the promise [then] returned is fulfilled
    once its handler has run. *)
Definition run_job (j : Job) (w : World) : World :=
  settle (target j) Fulfilled (run_callback (handler j) w).

(** A bound on the jobs still to run: those queued, and for each pending
    promise its own settlement and one job per reaction. *)
Definition pending_weight (c : Promise) : nat :=
  match status c with
  | Pending => S (length (reactions c))
  | Settled _ => 0
  end.

Definition work_left (w : World) : nat :=
  length (jobs w) + sum_list (pending_weight <$> promises w).

Fixpoint run_jobs (fuel : nat) (w : World) : World :=
  match fuel with
  | O => w
  | S fuel' =>
      match jobs w with
      | [] => w
      | j :: js => run_jobs fuel' (run_job j (set_jobs js w))
      end
  end.

(** The microtask checkpoint: jobs run oldest first until none is left. *)
Definition microtasks (w : World) : World :=
  run_jobs (work_left w) w.

(** ** Events *)

Inductive Event :=
| Tick (t : Z)                                   (* the clock reads [t] from now on *)
| NewPromise                                     (* a caller creates a promise *)
| Settle (p : PromiseId) (o : Outcome)           (* a caller's promise settles *)
| Microtasks                                     (* the call stack empties *)
| ScopeOpened (id : string)
| ScopeClosed (id : string)
| Show (arg : InfiniteOrTotal) (delay : option Z)
| HandleTotal (n : Z)
| HandleWorked (n : Z)
| HandleDone
| ShowWhile (p : PromiseId) (delay : option Z)
| UShow (arg : InfiniteOrTotal) (delay : option Z)
| UHandleTotal (n : Z)
| UHandleWorked (n : Z)
| UHandleDone
| UShowWhile (p : PromiseId) (delay : option Z).

(** The environment settles only promises it made itself. *)
Definition settle_external (p : PromiseId) (o : Outcome) (w : World) : World :=
  match promises w !! p with
  | Some c =>
      match origin c with
      | External => settle p o w
      | _ => w
      end
  | None => w
  end.

Definition step `{ProgressBar} (e : Event) (w : World) : World :=
  match e with
  | Tick t => set_now t w
  | NewPromise => snd (new_promise External 0 w)
  | Settle p o => settle_external p o w
  | Microtasks => microtasks w
  | ScopeOpened id => ScopedProgressService.onScopeOpened id w
  | ScopeClosed id => ScopedProgressService.onScopeClosed id w
  | Show arg delay => ScopedProgressService.show arg delay w
  | HandleTotal n => ScopedProgressService.handle_total n w
  | HandleWorked n => ScopedProgressService.handle_worked n w
  | HandleDone => ScopedProgressService.handle_done w
  | ShowWhile p delay => snd (ScopedProgressService.showWhile p delay w)
  | UShow arg delay => ProgressService.show arg delay w
  | UHandleTotal n => ProgressService.handle_total n w
  | UHandleWorked n => ProgressService.handle_worked n w
  | UHandleDone => ProgressService.handle_done w
  | UShowWhile p delay => snd (ProgressService.showWhile p delay w)
  end.

Definition run `{ProgressBar} (es : list Event) (w : World) : World :=
  foldl (fun w e => step e w) w es.

(** ** A concrete widget *)

(** Modelled from the spec: the progress bar widget
    (vs/base/browser/ui/progressbar) is not part of the sources.  The spec
    lists its capability: a determinate start with a total, a query "does it
    have a determinate total", reveal with an optional delay (a one-shot
    deferred action), stop and conceal.  This view keeps just that: the
    determinate total, set by [total(n)] and cleared by [stop()], and the
    time from which the widget is revealed ([None]: concealed).  A reveal
    asked for while the widget is already revealed changes nothing. *)
Record BarView := mkBarView {
  viewTotal : option Z;
  viewReveal : option Z
}.

Definition reveal (t : Z) (delay : option Z) (current : option Z) : option Z :=
  match current with
  | Some t0 => if (t0 <=? t)%Z then Some t0 else Some (t + or_zero delay)%Z
  | None => Some (t + or_zero delay)%Z
  end.

Definition bar_receive (v : BarView) (e : Z * BarCall) : BarView :=
  match snd e with
  | BarInfinite => v
  | BarTotal n => mkBarView (Some n) (viewReveal v)
  | BarWorked _ => v
  | BarShow delay => mkBarView (viewTotal v) (reveal (fst e) delay (viewReveal v))
  | BarStop => mkBarView None (viewReveal v)
  | BarHide => mkBarView (viewTotal v) None
  end.

Definition bar_view (log : BarLog) : BarView :=
  foldl bar_receive (mkBarView None None) log.

#[export] Instance SpecProgressBar : ProgressBar :=
  fun log =>
    match viewTotal (bar_view log) with
    | Some _ => true
    | None => false
    end.

(** ** Starting points and scenarios *)

(** Nothing has happened yet: clock at [t], no promise, fresh widgets. *)
Definition boot (t : Z) : World :=
  mkWorld t [] [] ScopeUndefined false NoneProgressState [] [].

(** A scoped reporter for the panel ["panel"], constructed at clock [t]. *)
Definition panel (active : bool) (t : Z) : World :=
  ScopedProgressService.constructor (ScopeString "panel") active (boot t).

(** How often a call occurs in what a widget received. *)
Definition is_call (c : BarCall) (e : Z * BarCall) : bool :=
  match c, snd e with
  | BarInfinite, BarInfinite => true
  | BarStop, BarStop => true
  | BarHide, BarHide => true
  | BarTotal a, BarTotal b => (a =? b)%Z
  | BarWorked a, BarWorked b => (a =? b)%Z
  | BarShow None, BarShow None => true
  | BarShow (Some a), BarShow (Some b) => (a =? b)%Z
  | _, _ => false
  end.

Definition count_calls (c : BarCall) (log : BarLog) : nat :=
  length (filter (fun e => is_call c e = true) log).

(** The spec's delay example: [showWhile(p, 1000)] with the clock at [t0],
    the scope closed and reopened [e] time units later. *)
Definition reopen_during_delay (t0 delay e : Z) : World :=
  run [NewPromise; ShowWhile 0 (Some delay); Microtasks;
       ScopeClosed "panel"; Tick (t0 + e); ScopeOpened "panel"]
      (panel true t0).

(** The identifier the spec calls empty: none at all, or the empty string. *)
Definition scope_id_empty (s : ScopeId) : bool :=
  match s with
  | ScopeUndefined | ScopeNull => true
  | ScopeString id => String.eqb id ""
  end.

(** Calls of [total] and [worked] on a handle. *)
Inductive WorkCall :=
| CallTotal (n : Z)
| CallWorked (n : Z).

Definition work_event (c : WorkCall) : Event :=
  match c with
  | CallTotal n => HandleTotal n
  | CallWorked n => HandleWorked n
  end.


(** The spec's reading of such a sequence: the sum of the [worked] deltas,
    whether there was any, and the last total set. *)
Definition sum_worked (cs : list WorkCall) : Z :=
  foldr (fun c acc => match c with CallWorked n => (n + acc)%Z | CallTotal _ => acc end)
        0%Z cs.

Definition has_worked (cs : list WorkCall) : bool :=
  existsb (fun c => match c with CallWorked _ => true | CallTotal _ => false end) cs.


Definition is_work (s : ProgressState) : bool :=
  match s with
  | WorkProgressState _ _ => true
  | _ => false
  end.

(** Since when the state has been [Work]: the worked amount it had on
    entering (the one it starts with, if it never left) and the calls made
    since.  A call that leaves the state something else than [Work] empties
    the record; a call that brings it back to [Work] starts a new one. *)
Definition follow `{ProgressBar} (c : WorkCall) (w : World)
           (e : option Z * list WorkCall) : option Z * list WorkCall :=
  if is_work (progressState (step (work_event c) w)) then
    if is_work (progressState w) then (fst e, snd e ++ [c]) else (None, [c])
  else (None, []).

Fixpoint since_entry `{ProgressBar} (cs : list WorkCall) (w : World)
         (e : option Z * list WorkCall) : option Z * list WorkCall :=
  match cs with
  | [] => e
  | c :: cs' => since_entry cs' (step (work_event c) w) (follow c w e)
  end.

(** The cumulative sum of such a record: absent as long as nothing was
    there on entering and no [worked] call was made since. *)
Definition running_sum (e : option Z * list WorkCall) : option Z :=
  if has_worked (snd e) then Some (or_zero (fst e) + sum_worked (snd e))%Z
  else fst e.

(** What reactivation re-issues for a recorded state, read at clock [t],
    state by state as the spec lists it and with the conditions the source
    puts on each: nothing for [None] and [Done]; for [While] the
    indeterminate start, revealed after the sum of the two recorded numbers
    less the clock when that and the field [whileDelay] are above zero, at
    once otherwise; the indeterminate start, revealed at once, for
    [Infinite]; for [Work] the total and then the worked amount, each
    revealed at once, each only when it is a number other than zero. *)
Definition spec_replay (t : Z) (s : ProgressState) : BarLog :=
  match s with
  | NoneProgressState | DoneProgressState => []
  | InfiniteProgressState => [(t, BarInfinite); (t, BarShow None)]
  | WhileProgressState _ a b =>
      [(t, BarInfinite);
       (t, BarShow (if (0 <? b)%Z && (0 <? a + b - t)%Z
                    then Some (a + b - t)%Z else None))]
  | WorkProgressState total worked =>
      match total with
      | Some n => if (n =? 0)%Z then [] else [(t, BarTotal n); (t, BarShow None)]
      | None => []
      end ++
      match worked with
      | Some k => if (k =? 0)%Z then [] else [(t, BarWorked k); (t, BarShow None)]
      | None => []
      end
  end.

(** Events that are not a scope opening. *)
Definition not_opening (e : Event) : bool :=
  match e with
  | ScopeOpened _ => false
  | _ => true
  end.

(** Two [showWhile] calls in a row on an active reporter: the state holds
    the joined promise, number 3; promise 0 is the first operation. *)
Definition two_joined : World :=
  run [NewPromise; NewPromise; ShowWhile 0 None; ShowWhile 1 None] (panel true 0).


(** ** Well-formed promise stores *)

(** The functions [Promise.all] hands to [then] name a promise made by
    [Promise.all]; the promise a reaction or a job is to fulfil was made by
    [then]; and a promise made by [then] is never rejected.  Every world
    reached from [boot] is like this. *)
Definition origin_is (w : World) (p : PromiseId) (o : PromiseOrigin) : bool :=
  match origin_of w p, o with
  | Some External, External => true
  | Some FromThen, FromThen => true
  | Some FromAll, FromAll => true
  | _, _ => false
  end.

Definition callback_ok (w : World) (cb : Callback) : bool :=
  match cb with
  | AllResolveElement j | AllReject j => origin_is w j FromAll
  | ScopedStop _ | UnscopedStop => true
  end.

Definition reaction_ok (w : World) (r : Reaction) : bool :=
  callback_ok w (onFulfilled r) && callback_ok w (onRejected r)
  && origin_is w (derived r) FromThen.

Definition job_ok (w : World) (j : Job) : bool :=
  callback_ok w (handler j) && origin_is w (target j) FromThen.

Definition promise_ok (w : World) (c : Promise) : bool :=
  forallb (reaction_ok w) (reactions c)
  && match origin c, status c with
     | FromThen, Settled Rejected => false
     | _, _ => true
     end.

Definition well_formed (w : World) : bool :=
  forallb (job_ok w) (jobs w) && forallb (promise_ok w) (promises w).


(** Promises are never forgotten, keep their origin, and stay settled the
    way they settled. *)
Definition grows (w w' : World) : Prop :=
  ∀ p c, promises w !! p = Some c →
    ∃ c', promises w' !! p = Some c' ∧ origin c' = origin c ∧
          (∀ o, status c = Settled o → status c' = Settled o).

Definition settled (w : World) (p : PromiseId) : bool :=
  match status_of w p with
  | Some (Settled _) => true
  | _ => false
  end.

(** An active reporter and one pending promise of a caller, number 0. *)
Definition one_pending : World :=
  run [NewPromise] (panel true 0).

(** Two operations shown one after the other: promise 0 is operation A,
    shown at clock [tA], promise 1 is operation B, shown at [tB] while A is
    pending.  The calls return promise 2 for A and promise 6 for B; promise
    3 is the join [Promise.all([B, A])]. *)
Definition joined_calls (tA tB : Z) (dA dB : option Z) : list Event :=
  [NewPromise; NewPromise;
   Tick tA; ShowWhile 0 dA; Microtasks;
   Tick tB; ShowWhile 1 dB; Microtasks].

(** Promise [p] settles at clock [t], and the microtasks run. *)
Definition settles_at (t : Z) (p : PromiseId) (o : Outcome) : list Event :=
  [Tick t; Settle p o; Microtasks].

(** ** Reading the other functions *)

(** Whether a scope event's id is the reporter's: [scopeId === this.scopeId]
    of [onScopeOpened] and [onScopeClosed], as a function of the id held. *)
Definition scope_matches (mine : ScopeId) (id : string) : bool :=
  match mine with
  | ScopeString s => String.eqb id s
  | ScopeUndefined | ScopeNull => false
  end.

(** The activity a sequence of events leaves: the scope events for the
    reporter's own id, read in order; every other event is passed over. *)
Definition activity_after (mine : ScopeId) (es : list Event) (active : bool) : bool :=
  foldl (fun a e =>
           match e with
           | ScopeOpened id => if scope_matches mine id then true else a
           | ScopeClosed id => if scope_matches mine id then false else a
           | _ => a
           end) active es.

(** The call on the unscoped reporter that corresponds to a call on the
    scoped one. *)
Definition to_unscoped (e : Event) : Event :=
  match e with
  | Show arg delay => UShow arg delay
  | HandleTotal n => UHandleTotal n
  | HandleWorked n => UHandleWorked n
  | HandleDone => UHandleDone
  | ShowWhile p delay => UShowWhile p delay
  | _ => e
  end.

(** Calls on the scoped reporter, the clock and new promises: what can
    happen without a promise settling or a scope changing. *)
Definition plain_call (e : Event) : bool :=
  match e with
  | Tick _ | NewPromise | Show _ _ | HandleTotal _ | HandleWorked _
  | HandleDone | ShowWhile _ _ => true
  | _ => false
  end.

(** Two [showWhile] calls on the unscoped reporter, promise 0 shown at
    clock [tA] and promise 1 at [tB]; the calls return promises 2 and 3. *)
Definition unscoped_calls (tA tB : Z) (dA dB : option Z) : list Event :=
  [NewPromise; NewPromise;
   Tick tA; UShowWhile 0 dA; Microtasks;
   Tick tB; UShowWhile 1 dB; Microtasks].

(** The [stop] closure for [p] is armed: registered on a pending [p] for
    both outcomes, or queued. *)
Definition armed (w : World) (p : PromiseId) : Prop :=
  (∃ c r, promises w !! p = Some c ∧ status c = Pending
          ∧ mkReaction (ScopedStop p) (ScopedStop p) r ∈ reactions c)
  ∨ (∃ r, settled w p = true ∧ mkJob (ScopedStop p) r ∈ jobs w).

(** A [While] state always has its [stop] armed. *)
Definition while_armed (w : World) : Prop :=
  ∀ p a b, progressState w = WhileProgressState p a b → armed w p.

(** The calls that replace the recorded state by one that is not a
    [While]: [show] and the three handle operations. *)
Definition supersedes (e : Event) : bool :=
  match e with
  | Show _ _ | HandleTotal _ | HandleWorked _ | HandleDone => true
  | _ => false
  end.

Definition is_while (s : ProgressState) : bool :=
  match s with
  | WhileProgressState _ _ _ => true
  | _ => false
  end.

(** Every [showWhile] of the sequence is handed a promise that exists when
    the call is made. *)
Fixpoint promises_exist `{ProgressBar} (es : list Event) (w : World) : bool :=
  match es with
  | [] => true
  | e :: es' =>
      match e with
      | ShowWhile p _ | UShowWhile p _ => p <? length (promises w)
      | _ => true
      end && promises_exist es' (step e w)
  end.

(** Everything in a world but the activity of the scoped reporter and what
    its widget received. *)
Definition record_view (w : World) :=
  (now w, scopeId w, progressState w, unscopedbar w, promises w, jobs w).

(** Events whose effect on the record does not ask whether the reporter is
    active: all but the scope events and [worked], whose fallback does. *)
Definition activity_blind (e : Event) : bool :=
  match e with
  | ScopeOpened _ | ScopeClosed _ | HandleWorked _ => false
  | _ => true
  end.
(** ** Properties of single calls *)

Section SingleCalls.
Context `{ProgressBar}.

(** C10 — [show] with a boolean first argument, [true] or [false] alike,
    records [Infinite]; an active scoped reporter starts its widget in
    indeterminate mode and reveals it with the delay given, an inactive
    one leaves the widget alone, and the unscoped reporter always starts
    and reveals its widget that way. *)
Theorem show_boolean_is_infinite (b : bool) (delay : option Z) (w : World) :
  progressState (ScopedProgressService.show (ArgBoolean b) delay w)
    = InfiniteProgressState
  ∧ progressbar (ScopedProgressService.show (ArgBoolean b) delay w)
    = (if isActive w
       then progressbar w ++ [(now w, BarInfinite); (now w, BarShow delay)]
       else progressbar w)
  ∧ unscopedbar (ProgressService.show (ArgBoolean b) delay w)
    = unscopedbar w ++ [(now w, BarInfinite); (now w, BarShow delay)].
Proof.
  unfold ScopedProgressService.show, ProgressService.show. cbn.
  destruct (isActive w); cbn; rewrite <- ?app_assoc; auto.
Qed.

(** C6 — the [stop] closure of a [showWhile] whose promise is no longer
    the one recorded in the current [While] state changes nothing: the
    state, the widget and everything else stay as they were. *)
Theorem stale_stop_is_noop (w : World) (promise whilePromise : PromiseId)
        (whileStart whileDelay : Z) :
  progressState w = WhileProgressState whilePromise whileStart whileDelay →
  whilePromise ≠ promise →
  run_callback (ScopedStop promise) w = w.
Proof.
  intros Hstate Hne. cbn. unfold ScopedProgressService.stop.
  rewrite Hstate.
  destruct (Nat.eqb_spec whilePromise promise) as [Heq | _]; [contradiction | reflexivity].
Qed.

(** The fallback of [worked]: an active reporter whose widget reports no
    total records [Infinite] and starts the widget in indeterminate mode,
    revealed at once. *)
Lemma handle_worked_fallback (n : Z) (w : World) :
  isActive w = true →
  hasTotal (progressbar w) = false →
  ScopedProgressService.handle_worked n w
    = bar (BarShow None)
        (bar BarInfinite (set_progressState InfiniteProgressState w)).
Proof.
  intros Hact Htot. unfold ScopedProgressService.handle_worked.
  rewrite Hact, Htot. reflexivity.
Qed.

(** C5, as the source has it — on an active scoped reporter whose widget
    reports no total, [worked(n)] records [Infinite], whatever the state
    was, and switches the widget to indeterminate mode, revealed at
    once. *)
Theorem worked_without_total_falls_back (n : Z) (w : World) :
  isActive w = true →
  hasTotal (progressbar w) = false →
  progressState (ScopedProgressService.handle_worked n w) = InfiniteProgressState
  ∧ progressbar (ScopedProgressService.handle_worked n w)
    = progressbar w ++ [(now w, BarInfinite); (now w, BarShow None)].
Proof.
  intros Hact Htot. rewrite (handle_worked_fallback n w Hact Htot).
  cbn. rewrite <- app_assoc. auto.
Qed.


(** C8, as the source has it — after [done()] and after a second
    [done()] the state is [Done]; an active reporter tells its widget to
    stop and hide on each call, twice in all, an inactive one never. *)
Theorem done_twice (w : World) :
  progressState (ScopedProgressService.handle_done w) = DoneProgressState
  ∧ progressState
      (ScopedProgressService.handle_done (ScopedProgressService.handle_done w))
    = DoneProgressState
  ∧ progressbar
      (ScopedProgressService.handle_done (ScopedProgressService.handle_done w))
    = (if isActive w
       then progressbar w ++ [(now w, BarStop); (now w, BarHide);
                              (now w, BarStop); (now w, BarHide)]
       else progressbar w).
Proof.
  unfold ScopedProgressService.handle_done. cbn.
  destruct (isActive w) eqn:Hact; cbn; rewrite ?Hact; cbn;
    rewrite <- ?app_assoc; auto.
Qed.

(** C9, as the source has it — a scoped reporter constructed with
    [isActive = false] starts inactive exactly when its scope identifier
    is a string, the empty string included; it starts active when the
    identifier is [undefined] or [null]. *)
Theorem constructed_inactive (sid : ScopeId) (w : World) :
  isActive (ScopedProgressService.constructor sid false w)
    = match sid with
      | ScopeUndefined | ScopeNull => true
      | ScopeString _ => false
      end
  ∧ progressState (ScopedProgressService.constructor sid false w)
    = NoneProgressState.
Proof. destruct sid; cbn; auto. Qed.

End SingleCalls.

Lemma stale_stop_is_noop_witness :
  run_callback (ScopedStop 0) two_joined = two_joined.
Proof.
  apply (stale_stop_is_noop two_joined 0 3 0 0); [reflexivity | lia].
Defined.

Lemma worked_without_total_falls_back_witness :
  progressState (ScopedProgressService.handle_worked 5 (panel true 0))
    = InfiniteProgressState
  ∧ progressbar (ScopedProgressService.handle_worked 5 (panel true 0))
    = progressbar (panel true 0) ++ [(0%Z, BarInfinite); (0%Z, BarShow None)].
Proof.
  apply (worked_without_total_falls_back 5 (panel true 0)); reflexivity.
Defined.

(** C5 as stated fails: on an inactive reporter in state [Infinite], which
    is not [Work], [worked(5)] records [Work] with worked 5. *)
Lemma worked_on_inactive_reporter_records_work :
  progressState (run [Show (ArgBoolean true) None] (panel false 0))
    = InfiniteProgressState
  ∧ progressState
      (run [Show (ArgBoolean true) None; HandleWorked 5] (panel false 0))
    = WorkProgressState None (Some 5%Z).
Proof. split; reflexivity. Qed.

(** C8 as stated fails: after [show(true)] and two [done()] calls the widget
    of an active reporter was told to stop twice and to hide twice. *)
Lemma done_twice_stops_twice :
  count_calls BarStop
    (progressbar (run [Show (ArgBoolean true) None; HandleDone; HandleDone]
                      (panel true 0))) = 2
  ∧ count_calls BarHide
    (progressbar (run [Show (ArgBoolean true) None; HandleDone; HandleDone]
                      (panel true 0))) = 2.
Proof. split; reflexivity. Qed.

(** C9 as stated fails: the empty string is an empty identifier, yet the
    reporter constructed with it and [isActive = false] starts inactive. *)
Lemma empty_string_scope_starts_inactive :
  scope_id_empty (ScopeString "") = true
  ∧ isActive (ScopedProgressService.constructor (ScopeString "") false (boot 0))
    = false.
Proof. split; reflexivity. Qed.


(** ** The remaining delay on reactivation *)

(** [showWhile] records [delay || 0] in the field [whileStart] and the clock
    in the field [whileDelay] (lemma [showWhile_state]): the constructor of
    the state takes the start before the delay, the call passes the delay
    before the clock.  With the clock above zero when [showWhile] is called
    the swap goes unnoticed, [whileDelay - (now - whileStart)] being
    symmetric in the two fields: reopening the scope [e < delay] later
    reveals the widget after [delay - e]. *)
Lemma reopen_reveals_after_remaining_delay (t0 delay e : Z) :
  (0 < t0)%Z → (e < delay)%Z →
  progressbar (reopen_during_delay t0 delay e)
    = [(t0, BarInfinite); (t0, BarShow (Some delay));
       ((t0 + e)%Z, BarInfinite); ((t0 + e)%Z, BarShow (Some (delay - e)%Z))].
Proof.
  intros Hclock Hearly. unfold reopen_during_delay. cbn.
  unfold ScopedProgressService.onScopeOpened, ScopedProgressService.onScopeActivated,
    ScopedProgressService.doShowWhile. cbn. unfold Date_now. cbn.
  replace (t0 - (t0 + e - delay))%Z with (delay - e)%Z by lia.
  destruct (Z.ltb_spec 0 t0) as [_ | ?]; [| lia].
  destruct (Z.ltb_spec 0 (delay - e)) as [_ | ?]; [| lia].
  reflexivity.
Qed.


(** ** The promise store *)

(** Case analysis on every [match] the goal is stuck on. *)
Ltac break_match :=
  repeat match goal with
         | |- context [match ?x with _ => _ end] => destruct x eqn:?
         end.

Ltac break_match_in H :=
  repeat match type of H with
         | context [match ?x with _ => _ end] => destruct x eqn:?
         end.

(** *** The promise machinery leaves the reporters alone *)

Lemma new_promise_reporter o n w :
  reporter_view (snd (new_promise o n w)) = reporter_view w.
Proof. reflexivity. Qed.

Lemma settle_reporter p o w : reporter_view (settle p o w) = reporter_view w.
Proof. unfold settle. break_match; reflexivity. Qed.

Lemma promise_then_reporter p f g w :
  reporter_view (snd (promise_then p f g w)) = reporter_view w.
Proof. unfold promise_then. cbn. break_match; reflexivity. Qed.

Lemma Promise_all_reporter a b w :
  reporter_view (snd (Promise_all a b w)) = reporter_view w.
Proof.
  unfold Promise_all.
  destruct (new_promise FromAll 2 w) as [j w1] eqn:H1.
  destruct (promise_then a _ _ w1) as [d2 w2] eqn:H2.
  destruct (promise_then b _ _ w2) as [d3 w3] eqn:H3. cbn.
  change w3 with (snd (d3, w3)). rewrite <- H3, promise_then_reporter.
  change w2 with (snd (d2, w2)). rewrite <- H2, promise_then_reporter.
  change w1 with (snd (j, w1)). rewrite <- H1. reflexivity.
Qed.

Lemma all_resolve_element_reporter j w :
  reporter_view (all_resolve_element j w) = reporter_view w.
Proof.
  unfold all_resolve_element. break_match; try reflexivity.
  rewrite settle_reporter. reflexivity.
Qed.

Lemma settle_external_reporter p o w :
  reporter_view (settle_external p o w) = reporter_view w.
Proof. unfold settle_external. break_match; auto using settle_reporter. Qed.

(** Turn an equation between views into equations between fields. *)
Ltac fields H :=
  unfold reporter_view, store_view in H;
  let E1 := fresh "Hnow" in let E2 := fresh "Hscope" in
  let E3 := fresh "Hactive" in let E4 := fresh "Hstate" in
  let E5 := fresh "Hbar" in let E6 := fresh "Hubar" in
  injection H as E1 E2 E3 E4 E5 E6.

(** *** The store only grows *)

Lemma grows_refl w : grows w w.
Proof. intros p c Hp. eauto. Qed.

Lemma grows_trans w1 w2 w3 : grows w1 w2 → grows w2 w3 → grows w1 w3.
Proof.
  intros H12 H23 p c Hp.
  destruct (H12 p c Hp) as (c2 & Hp2 & Ho2 & Hs2).
  destruct (H23 p c2 Hp2) as (c3 & Hp3 & Ho3 & Hs3).
  exists c3. split; [assumption |]. split; [congruence |].
  intros o Ho. eauto.
Qed.

Lemma grows_same w w' : promises w' = promises w → grows w w'.
Proof. intros Heq p c Hp. rewrite Heq. eauto. Qed.

Lemma grows_app w w' l : promises w' = promises w ++ l → grows w w'.
Proof.
  intros Heq p c Hp. rewrite Heq. exists c.
  split; [apply lookup_app_l_Some; assumption | auto].
Qed.

Lemma grows_insert w w' p c c' :
  promises w' = <[p := c']> (promises w) →
  promises w !! p = Some c →
  origin c' = origin c →
  (∀ o, status c = Settled o → status c' = Settled o) →
  grows w w'.
Proof.
  intros Heq Hp Ho Hs q d Hq. rewrite Heq.
  destruct (decide (p = q)) as [<- | Hne].
  - exists c'. rewrite list_lookup_insert_eq by (eapply lookup_lt_Some; eassumption).
    replace d with c by congruence. auto.
  - exists d. rewrite list_lookup_insert_ne by assumption. auto.
Qed.

Lemma new_promise_grows o n w : grows w (snd (new_promise o n w)).
Proof. eapply grows_app. reflexivity. Qed.

Lemma settle_grows p o w : grows w (settle p o w).
Proof.
  unfold settle. destruct (promises w !! p) as [c|] eqn:Hp; [| apply grows_refl].
  destruct (status c) eqn:Hs; [| apply grows_refl].
  eapply grows_insert; [reflexivity | eassumption | reflexivity |].
  intros o' Ho'. congruence.
Qed.

Lemma promise_then_grows p f g w : grows w (snd (promise_then p f g w)).
Proof.
  unfold promise_then.
  destruct (new_promise FromThen 0 w) as [d w1] eqn:Hnew.
  assert (grows w w1) as Hg.
  { change w1 with (snd (d, w1)). rewrite <- Hnew. apply new_promise_grows. }
  destruct (promises w1 !! p) as [c|] eqn:Hp; [| exact Hg].
  destruct (status c) eqn:Hs; cbn.
  - eapply grows_trans; [exact Hg |].
    eapply grows_insert; [reflexivity | eassumption | reflexivity |].
    cbn. intros o' Ho'. congruence.
  - eapply grows_trans; [exact Hg | apply grows_same; reflexivity].
Qed.




(** What growth keeps. *)
Lemma grows_origin w w' p o :
  grows w w' → origin_of w p = Some o → origin_of w' p = Some o.
Proof.
  unfold origin_of. intros Hg Ho.
  destruct (promises w !! p) as [c|] eqn:Hp; [| discriminate].
  destruct (Hg p c Hp) as (c' & -> & Ho' & _). cbn in *. congruence.
Qed.

Lemma grows_origin_is w w' p o :
  grows w w' → origin_is w p o = true → origin_is w' p o = true.
Proof.
  unfold origin_is. intros Hg Ho.
  destruct (origin_of w p) as [o0|] eqn:Hp; [| discriminate].
  rewrite (grows_origin w w' p o0 Hg Hp). assumption.
Qed.

Lemma grows_settled w w' p :
  grows w w' → settled w p = true → settled w' p = true.
Proof.
  unfold settled, status_of. intros Hg Hs.
  destruct (promises w !! p) as [c|] eqn:Hp; [| discriminate].
  destruct (Hg p c Hp) as (c' & -> & _ & Hs'). cbn in *.
  destruct (status c) as [|o]; [discriminate |].
  rewrite (Hs' o eq_refl). reflexivity.
Qed.


Lemma grows_is_Some w w' p :
  grows w w' → is_Some (promises w !! p) → is_Some (promises w' !! p).
Proof. intros Hg [c Hp]. destruct (Hg p c Hp) as (c' & -> & _). eauto. Qed.

(** *** Well-formed stores stay well-formed *)

Lemma well_formed_iff w :
  well_formed w = true ↔
  Forall (λ j, job_ok w j = true) (jobs w)
  ∧ Forall (λ c, promise_ok w c = true) (promises w).
Proof.
  unfold well_formed. rewrite andb_true_iff, !forallb_forall, !Forall_forall.
  setoid_rewrite list_elem_of_In. reflexivity.
Qed.

Lemma promise_ok_iff w c :
  promise_ok w c = true ↔
  Forall (λ r, reaction_ok w r = true) (reactions c)
  ∧ (origin c = FromThen → status c ≠ Settled Rejected).
Proof.
  unfold promise_ok. rewrite andb_true_iff, forallb_forall, Forall_forall.
  setoid_rewrite list_elem_of_In.
  split; intros [Hr Hs]; (split; [exact Hr |]).
  - intros Ho Hst. rewrite Ho, Hst in Hs. discriminate.
  - destruct (origin c); try reflexivity.
    destruct (status c) as [|[|]]; try reflexivity.
    exfalso. apply Hs; reflexivity.
Qed.

Lemma well_formed_store w w' :
  store_view w' = store_view w → well_formed w' = well_formed w.
Proof.
  destruct w, w'. unfold store_view. cbn. intros [= -> ->]. reflexivity.
Qed.

Lemma callback_ok_grows w w' cb :
  grows w w' → callback_ok w cb = true → callback_ok w' cb = true.
Proof. destruct cb; cbn; eauto using grows_origin_is. Qed.

Lemma reaction_ok_grows w w' r :
  grows w w' → reaction_ok w r = true → reaction_ok w' r = true.
Proof.
  unfold reaction_ok. rewrite !andb_true_iff. intros Hg [[Hf Hr] Hd].
  repeat split; eauto using callback_ok_grows, grows_origin_is.
Qed.

Lemma job_ok_grows w w' j :
  grows w w' → job_ok w j = true → job_ok w' j = true.
Proof.
  unfold job_ok. rewrite !andb_true_iff. intros Hg [Hh Ht].
  split; eauto using callback_ok_grows, grows_origin_is.
Qed.

Lemma promise_ok_grows w w' c :
  grows w w' → promise_ok w c = true → promise_ok w' c = true.
Proof.
  rewrite !promise_ok_iff. intros Hg [Hr Hs]. split; [| exact Hs].
  eapply Forall_impl; [exact Hr |]. cbn. eauto using reaction_ok_grows.
Qed.

Lemma jobs_ok_grows w w' js :
  grows w w' →
  Forall (λ j, job_ok w j = true) js → Forall (λ j, job_ok w' j = true) js.
Proof.
  intros Hg Hjs. eapply Forall_impl; [exact Hjs |]. cbn. eauto using job_ok_grows.
Qed.

Lemma promises_ok_grows w w' ps :
  grows w w' →
  Forall (λ c, promise_ok w c = true) ps → Forall (λ c, promise_ok w' c = true) ps.
Proof.
  intros Hg Hps. eapply Forall_impl; [exact Hps |]. cbn. eauto using promise_ok_grows.
Qed.

Lemma reaction_job_ok w o r :
  reaction_ok w r = true → job_ok w (reaction_job o r) = true.
Proof.
  unfold reaction_ok, job_ok. rewrite !andb_true_iff. intros [[Hf Hr] Hd].
  destruct o; cbn; auto.
Qed.

Lemma new_promise_origin o n w :
  origin_of (snd (new_promise o n w)) (fst (new_promise o n w)) = Some o.
Proof.
  unfold origin_of. cbn. rewrite list_lookup_middle by reflexivity. reflexivity.
Qed.

Lemma origin_is_of w p o : origin_of w p = Some o → origin_is w p o = true.
Proof. unfold origin_is. intros ->. destruct o; reflexivity. Qed.

Lemma origin_of_is w p o : origin_is w p o = true → origin_of w p = Some o.
Proof.
  unfold origin_is. destruct (origin_of w p) as [[]|]; destruct o;
    intros; try discriminate; reflexivity.
Qed.

Lemma new_promise_well_formed o n w :
  well_formed w = true → well_formed (snd (new_promise o n w)) = true.
Proof.
  rewrite !well_formed_iff. intros [Hj Hp].
  pose proof (new_promise_grows o n w) as Hg. split.
  - eapply jobs_ok_grows; [exact Hg | exact Hj].
  - cbn. apply Forall_app. split.
    + eapply promises_ok_grows; [exact Hg | exact Hp].
    + constructor; [| constructor]. destruct o; reflexivity.
Qed.

(** Settling keeps the store well-formed, provided a promise made by
    [then] is not rejected. *)
Lemma settle_well_formed p o w :
  well_formed w = true →
  (o = Rejected → origin_is w p FromThen = false) →
  well_formed (settle p o w) = true.
Proof.
  intros Hwf Hrej. pose proof (settle_grows p o w) as Hg. revert Hg.
  unfold settle. destruct (promises w !! p) as [c|] eqn:Hp; [| auto].
  destruct (status c) eqn:Hs; [| auto].
  intros Hg. apply well_formed_iff in Hwf as [Hj Hps].
  assert (promise_ok w c = true) as Hc.
  { rewrite Forall_forall in Hps. apply Hps. eapply list_elem_of_lookup_2; eassumption. }
  apply promise_ok_iff in Hc as [Hr _].
  apply well_formed_iff. cbn. split.
  - apply Forall_app. split.
    + eapply jobs_ok_grows; [exact Hg | exact Hj].
    + apply Forall_fmap. eapply Forall_impl; [exact Hr |]. cbn.
      intros r Hrk. apply reaction_job_ok. eapply reaction_ok_grows; eassumption.
  - apply Forall_insert.
    + eapply promises_ok_grows; [exact Hg | exact Hps].
    + apply promise_ok_iff. cbn. split; [constructor |].
      intros Ho [= ->]. specialize (Hrej eq_refl).
      unfold origin_is, origin_of in Hrej. rewrite Hp in Hrej. cbn in Hrej.
      rewrite Ho in Hrej. discriminate.
Qed.

Lemma promise_then_well_formed p f g w :
  well_formed w = true →
  callback_ok w f = true → callback_ok w g = true →
  well_formed (snd (promise_then p f g w)) = true.
Proof.
  intros Hwf Hf Hg.
  pose proof (new_promise_well_formed FromThen 0 w Hwf) as Hwf1.
  pose proof (new_promise_grows FromThen 0 w) as Hg1.
  pose proof (new_promise_origin FromThen 0 w) as Hd.
  unfold promise_then.
  destruct (new_promise FromThen 0 w) as [d w1]. cbn in Hwf1, Hg1, Hd.
  assert (reaction_ok w1 (mkReaction f g d) = true) as Hr.
  { unfold reaction_ok. cbn. rewrite !andb_true_iff.
    repeat split; eauto using callback_ok_grows, origin_is_of. }
  destruct (promises w1 !! p) as [c|] eqn:Hp; [| auto].
  apply well_formed_iff in Hwf1 as [Hj Hps].
  destruct (status c) eqn:Hs; cbn.
  - set (c' := mkPromise Pending (reactions c ++ [mkReaction f g d])
                         (origin c) (remaining c)).
    set (w2 := set_promises (<[p := c']> (promises w1)) w1).
    assert (grows w1 w2) as Hg2.
    { eapply grows_insert; [reflexivity | eassumption | reflexivity |].
      cbn. intros o' Ho'. congruence. }
    apply well_formed_iff. cbn. split.
    + eapply jobs_ok_grows; [exact Hg2 | exact Hj].
    + assert (promise_ok w1 c = true) as Hc.
      { rewrite Forall_forall in Hps. apply Hps.
        eapply list_elem_of_lookup_2; eassumption. }
      apply Forall_insert.
      * eapply promises_ok_grows; [exact Hg2 | exact Hps].
      * eapply promise_ok_grows; [exact Hg2 |].
        apply promise_ok_iff in Hc as [Hrs _].
        apply promise_ok_iff. cbn. split; [| discriminate].
        apply Forall_app. split; [exact Hrs |].
        constructor; [exact Hr | constructor].
  - apply well_formed_iff. cbn. split; [| exact Hps].
    apply Forall_app. split; [exact Hj |].
    constructor; [| constructor]. apply reaction_job_ok. exact Hr.
Qed.

Lemma Promise_all_origin a b w :
  origin_is (snd (Promise_all a b w)) (fst (Promise_all a b w)) FromAll = true.
Proof.
  pose proof (new_promise_origin FromAll 2 w) as Hj.
  unfold Promise_all. destruct (new_promise FromAll 2 w) as [j w1]. cbn in Hj.
  pose proof (promise_then_grows a (AllResolveElement j) (AllReject j) w1) as H2.
  destruct (promise_then a _ _ w1) as [d2 w2]. cbn in H2.
  pose proof (promise_then_grows b (AllResolveElement j) (AllReject j) w2) as H3.
  destruct (promise_then b _ _ w2) as [d3 w3]. cbn in *.
  eauto using grows_origin_is, origin_is_of.
Qed.

Lemma Promise_all_well_formed a b w :
  well_formed w = true → well_formed (snd (Promise_all a b w)) = true.
Proof.
  intros Hwf.
  pose proof (new_promise_well_formed FromAll 2 w Hwf) as Hwf1.
  pose proof (new_promise_origin FromAll 2 w) as Hj.
  unfold Promise_all. destruct (new_promise FromAll 2 w) as [j w1].
  cbn in Hwf1, Hj. apply origin_is_of in Hj.
  pose proof (promise_then_well_formed a (AllResolveElement j) (AllReject j) w1
                Hwf1 Hj Hj) as Hwf2.
  pose proof (promise_then_grows a (AllResolveElement j) (AllReject j) w1) as Hg2.
  destruct (promise_then a _ _ w1) as [d2 w2]. cbn in Hwf2, Hg2.
  assert (origin_is w2 j FromAll = true) as Hj2 by eauto using grows_origin_is.
  pose proof (promise_then_well_formed b (AllResolveElement j) (AllReject j) w2
                Hwf2 Hj2 Hj2) as Hwf3.
  destruct (promise_then b _ _ w2) as [d3 w3]. exact Hwf3.
Qed.

Lemma all_resolve_element_well_formed j w :
  well_formed w = true → well_formed (all_resolve_element j w) = true.
Proof.
  intros Hwf. unfold all_resolve_element.
  destruct (promises w !! j) as [c|] eqn:Hj; [| exact Hwf].
  set (c' := mkPromise (status c) (reactions c) (origin c) (pred (remaining c))).
  set (w1 := set_promises (<[j := c']> (promises w)) w).
  assert (grows w w1) as Hg.
  { eapply grows_insert; [reflexivity | eassumption | reflexivity | auto]. }
  assert (well_formed w1 = true) as Hwf1.
  { apply well_formed_iff in Hwf as [Hjs Hps]. apply well_formed_iff. split.
    - eapply jobs_ok_grows; [exact Hg | exact Hjs].
    - cbn. apply Forall_insert.
      + eapply promises_ok_grows; [exact Hg | exact Hps].
      + eapply promise_ok_grows; [exact Hg |].
        rewrite Forall_forall in Hps.
        apply (Hps c). eapply list_elem_of_lookup_2; eassumption. }
  destruct (pred (remaining c)); [| exact Hwf1].
  apply settle_well_formed; [exact Hwf1 | discriminate].
Qed.

(** *** The reporters' own steps leave the store alone *)

Lemma stop_store promise w :
  store_view (ScopedProgressService.stop promise w) = store_view w.
Proof. unfold ScopedProgressService.stop. cbn. break_match; reflexivity. Qed.

Lemma unscoped_stop_store w : store_view (ProgressService.stop w) = store_view w.
Proof. reflexivity. Qed.

Lemma doShowWhile_store delay w :
  store_view (ScopedProgressService.doShowWhile delay w) = store_view w.
Proof. unfold ScopedProgressService.doShowWhile. break_match; reflexivity. Qed.

Lemma onScopeActivated_store w :
  store_view (ScopedProgressService.onScopeActivated w) = store_view w.
Proof.
  unfold ScopedProgressService.onScopeActivated,
    ScopedProgressService.doShowWhile. cbn.
  break_match; reflexivity.
Qed.

Lemma show_store arg delay w :
  store_view (ScopedProgressService.show arg delay w) = store_view w.
Proof. unfold ScopedProgressService.show. cbn. break_match; reflexivity. Qed.

Lemma handle_total_store n w :
  store_view (ScopedProgressService.handle_total n w) = store_view w.
Proof. unfold ScopedProgressService.handle_total. cbn. break_match; reflexivity. Qed.

Lemma handle_worked_store `{ProgressBar} n w :
  store_view (ScopedProgressService.handle_worked n w) = store_view w.
Proof. unfold ScopedProgressService.handle_worked. cbn. break_match; reflexivity. Qed.

Lemma handle_done_store w :
  store_view (ScopedProgressService.handle_done w) = store_view w.
Proof. unfold ScopedProgressService.handle_done. cbn. break_match; reflexivity. Qed.

Lemma unscoped_show_store arg delay w :
  store_view (ProgressService.show arg delay w) = store_view w.
Proof. destruct arg; reflexivity. Qed.

Lemma unscoped_handle_worked_store `{ProgressBar} n w :
  store_view (ProgressService.handle_worked n w) = store_view w.
Proof. unfold ProgressService.handle_worked. break_match; reflexivity. Qed.

Lemma grows_store w w' : store_view w' = store_view w → grows w w'.
Proof. intros [= Hp _]. apply grows_same. exact Hp. Qed.


Lemma run_callback_well_formed cb w :
  well_formed w = true → callback_ok w cb = true →
  well_formed (run_callback cb w) = true.
Proof.
  intros Hwf Hcb. destruct cb; cbn in *.
  - rewrite (well_formed_store _ _ (stop_store promise w)). exact Hwf.
  - exact Hwf.
  - apply all_resolve_element_well_formed. exact Hwf.
  - apply settle_well_formed; [exact Hwf |]. intros _.
    apply origin_of_is in Hcb. unfold origin_is. rewrite Hcb. reflexivity.
Qed.


Lemma run_job_well_formed j w :
  well_formed w = true → job_ok w j = true → well_formed (run_job j w) = true.
Proof.
  unfold job_ok, run_job. rewrite andb_true_iff. intros Hwf [Hh Ht].
  apply settle_well_formed; [| discriminate].
  apply run_callback_well_formed; assumption.
Qed.

Lemma pop_well_formed j js w :
  well_formed w = true → jobs w = j :: js →
  well_formed (set_jobs js w) = true ∧ job_ok (set_jobs js w) j = true.
Proof.
  rewrite !well_formed_iff. intros [Hj Hp] Hjobs. rewrite Hjobs in Hj.
  inversion Hj as [| ? ? Hhead Htail]; subst. cbn. auto.
Qed.


Lemma run_jobs_well_formed fuel w :
  well_formed w = true → well_formed (run_jobs fuel w) = true.
Proof.
  revert w. induction fuel as [| fuel IH]; intros w Hwf; cbn; [exact Hwf |].
  destruct (jobs w) as [| j js] eqn:Hjobs; [exact Hwf |].
  destruct (pop_well_formed j js w Hwf Hjobs) as [Hwf' Hj].
  apply IH. apply run_job_well_formed; assumption.
Qed.

(** *** [showWhile], events and runs *)


Lemma join_running_well_formed p w :
  well_formed w = true →
  well_formed (snd (ScopedProgressService.join_running p w)) = true.
Proof.
  unfold ScopedProgressService.join_running.
  break_match; auto using Promise_all_well_formed.
Qed.

Lemma join_running_reporter p w :
  reporter_view (snd (ScopedProgressService.join_running p w)) = reporter_view w.
Proof.
  unfold ScopedProgressService.join_running.
  break_match; auto using Promise_all_reporter.
Qed.

Lemma join_running_is_Some p w :
  is_Some (promises w !! p) →
  is_Some (promises (snd (ScopedProgressService.join_running p w))
             !! fst (ScopedProgressService.join_running p w)).
Proof.
  intros Hp. unfold ScopedProgressService.join_running.
  destruct (progressState w); try exact Hp.
  pose proof (Promise_all_origin p whilePromise w) as Ho.
  apply origin_of_is in Ho. unfold origin_of in Ho.
  destruct (promises (snd (Promise_all p whilePromise w))
              !! fst (Promise_all p whilePromise w));
    [eauto | discriminate].
Qed.

(** [showWhile] in three steps: the join, the new state with the widget
    call, and the [then]. *)
Lemma showWhile_steps p delay w :
  let t := fst (ScopedProgressService.join_running p w) in
  let w1 := snd (ScopedProgressService.join_running p w) in
  let w2 := ScopedProgressService.doShowWhile delay
              (set_progressState
                 (WhileProgressState t (or_zero delay) (Date_now w1)) w1) in
  ScopedProgressService.showWhile p delay w
    = promise_then t (ScopedStop t) (ScopedStop t) w2.
Proof.
  unfold ScopedProgressService.showWhile.
  destruct (ScopedProgressService.join_running p w) as [t w1]. reflexivity.
Qed.


Lemma showWhile_well_formed p delay w :
  well_formed w = true →
  well_formed (snd (ScopedProgressService.showWhile p delay w)) = true.
Proof.
  intros Hwf. rewrite showWhile_steps. cbn zeta.
  apply promise_then_well_formed; try reflexivity.
  erewrite well_formed_store; [apply join_running_well_formed; exact Hwf |].
  rewrite doShowWhile_store. reflexivity.
Qed.

Lemma showWhile_state p delay w :
  progressState (snd (ScopedProgressService.showWhile p delay w))
    = WhileProgressState (fst (ScopedProgressService.join_running p w))
        (or_zero delay) (now w).
Proof.
  rewrite showWhile_steps. cbn zeta.
  pose proof (promise_then_reporter
                (fst (ScopedProgressService.join_running p w))
                (ScopedStop (fst (ScopedProgressService.join_running p w)))
                (ScopedStop (fst (ScopedProgressService.join_running p w)))
                (ScopedProgressService.doShowWhile delay
                   (set_progressState
                      (WhileProgressState
                         (fst (ScopedProgressService.join_running p w))
                         (or_zero delay)
                         (Date_now (snd (ScopedProgressService.join_running p w))))
                      (snd (ScopedProgressService.join_running p w))))) as Hf.
  fields Hf. rewrite Hstate.
  pose proof (join_running_reporter p w) as Hj. fields Hj.
  unfold ScopedProgressService.doShowWhile, Date_now.
  break_match; cbn; rewrite Hnow0; reflexivity.
Qed.


Lemma unscoped_showWhile_well_formed p delay w :
  well_formed w = true →
  well_formed (snd (ProgressService.showWhile p delay w)) = true.
Proof.
  intros Hwf. unfold ProgressService.showWhile.
  apply promise_then_well_formed; auto.
Qed.

Lemma settle_external_well_formed p o w :
  well_formed w = true → well_formed (settle_external p o w) = true.
Proof.
  intros Hwf. unfold settle_external.
  destruct (promises w !! p) as [c|] eqn:Hp; [| exact Hwf].
  destruct (origin c) eqn:Ho; try exact Hwf.
  apply settle_well_formed; [exact Hwf |]. intros _.
  unfold origin_is, origin_of. rewrite Hp. cbn. rewrite Ho. reflexivity.
Qed.


Lemma microtasks_well_formed w :
  well_formed w = true → well_formed (microtasks w) = true.
Proof. apply run_jobs_well_formed. Qed.

Section Runs.
Context `{ProgressBar}.


Lemma step_well_formed e w :
  well_formed w = true → well_formed (step e w) = true.
Proof.
  intros Hwf.
  destruct e; cbn [step];
    auto using new_promise_well_formed, settle_external_well_formed,
      microtasks_well_formed, showWhile_well_formed,
      unscoped_showWhile_well_formed;
    (erewrite well_formed_store; [exact Hwf |]);
    auto using show_store, handle_total_store, handle_worked_store,
      handle_done_store, unscoped_show_store, unscoped_handle_worked_store.
  - unfold ScopedProgressService.onScopeOpened.
    break_match; auto using onScopeActivated_store.
  - unfold ScopedProgressService.onScopeClosed. break_match; reflexivity.
Qed.


Lemma run_app es1 es2 w : run (es1 ++ es2) w = run es2 (run es1 w).
Proof. unfold run. apply foldl_app. Qed.


Lemma run_well_formed es w :
  well_formed w = true → well_formed (run es w) = true.
Proof.
  revert w. induction es as [| e es IH]; intros w Hwf; cbn; [exact Hwf |].
  apply IH. apply step_well_formed. exact Hwf.
Qed.

End Runs.

(** Every world a reporter can be in is well-formed. *)
Lemma reachable_well_formed `{ProgressBar} sid active t es :
  well_formed (run es (ScopedProgressService.constructor sid active (boot t))) = true.
Proof. apply run_well_formed. reflexivity. Qed.

(** ** A promise returned by [then] is fulfilled in the end *)

















Section RunsAwait.
Context `{ProgressBar}.



End RunsAwait.

(** *** The microtask checkpoint empties the queue *)

Lemma sum_list_insert {A} (f : A → nat) (l : list A) (i : nat) (x y : A) :
  l !! i = Some x →
  sum_list (f <$> <[i := y]> l) + f x = sum_list (f <$> l) + f y.
Proof.
  revert i. induction l as [| a l IH]; intros [| i] Hi; try discriminate.
  - injection Hi as ->. simpl. lia.
  - specialize (IH i Hi).
    change (<[S i := y]> (a :: l)) with (a :: <[i := y]> l).
    rewrite !fmap_cons. simpl. lia.
Qed.

Lemma settle_work_left p o w : work_left (settle p o w) ≤ work_left w.
Proof.
  unfold settle. destruct (promises w !! p) as [c|] eqn:Hp; [| lia].
  destruct (status c) eqn:Hs; [| lia].
  set (c' := mkPromise (Settled o) [] (origin c) (remaining c)).
  unfold work_left. cbn [jobs promises set_jobs set_promises].
  rewrite length_app, length_fmap.
  pose proof (sum_list_insert pending_weight (promises w) p c c' Hp) as Hsum.
  assert (pending_weight c' = 0) as Hc' by reflexivity.
  assert (pending_weight c = S (length (reactions c))) as Hc
      by (unfold pending_weight; rewrite Hs; reflexivity).
  lia.
Qed.

Lemma all_resolve_element_work_left j w :
  work_left (all_resolve_element j w) ≤ work_left w.
Proof.
  unfold all_resolve_element. destruct (promises w !! j) as [c|] eqn:Hj; [| lia].
  set (c' := mkPromise (status c) (reactions c) (origin c) (pred (remaining c))).
  set (w1 := set_promises (<[j := c']> (promises w)) w).
  assert (work_left w1 = work_left w) as Heq.
  { unfold work_left, w1. cbn [jobs promises set_jobs set_promises].
    pose proof (sum_list_insert pending_weight (promises w) j c c' Hj) as Hsum.
    assert (pending_weight c' = pending_weight c) as Hw by reflexivity. lia. }
  destruct (pred (remaining c)); [| lia].
  pose proof (settle_work_left j Fulfilled w1). lia.
Qed.

Lemma work_left_store w w' : store_view w' = store_view w → work_left w' = work_left w.
Proof. unfold work_left. intros [= -> ->]. reflexivity. Qed.

Lemma run_callback_work_left cb w : work_left (run_callback cb w) ≤ work_left w.
Proof.
  destruct cb; cbn.
  - rewrite (work_left_store _ _ (stop_store promise w)). lia.
  - reflexivity.
  - apply all_resolve_element_work_left.
  - apply settle_work_left.
Qed.

Lemma run_job_work_left j w : work_left (run_job j w) ≤ work_left w.
Proof.
  unfold run_job.
  pose proof (settle_work_left (target j) Fulfilled (run_callback (handler j) w)).
  pose proof (run_callback_work_left (handler j) w). lia.
Qed.

Lemma run_jobs_drains fuel w : work_left w ≤ fuel → jobs (run_jobs fuel w) = [].
Proof.
  revert w. induction fuel as [| fuel IH]; intros w Hfuel; cbn.
  - unfold work_left in Hfuel. destruct (jobs w); [reflexivity | cbn in Hfuel; lia].
  - destruct (jobs w) as [| j js] eqn:Hjobs; [exact Hjobs |].
    apply IH. pose proof (run_job_work_left j (set_jobs js w)) as Hle.
    assert (work_left (set_jobs js w) < work_left w) as Hlt.
    { unfold work_left. cbn [jobs promises set_jobs]. rewrite Hjobs.
      rewrite length_cons. lia. }
    lia.
Qed.

(** The checkpoint is total: it always ends with an empty queue. *)
Lemma microtasks_drains w : jobs (microtasks w) = [].
Proof. apply run_jobs_drains. reflexivity. Qed.

(** ** The future [showWhile] returns *)



Section Future.
Context `{ProgressBar}.



End Future.


(** ** Deactivation and reactivation *)

Lemma doShowWhile_reporter delay s w1 w :
  reporter_view w1 = reporter_view w →
  reporter_view (ScopedProgressService.doShowWhile delay (set_progressState s w1))
    = reporter_view (ScopedProgressService.doShowWhile delay (set_progressState s w)).
Proof.
  destruct w1, w. unfold reporter_view, ScopedProgressService.doShowWhile. cbn.
  intros [= -> -> -> -> -> ->]. destruct isActive1; reflexivity.
Qed.

(** What [showWhile] does to the reporter: the new state and, when active,
    the indeterminate start revealed with the delay given. *)
Lemma showWhile_reporter p delay w :
  reporter_view (snd (ScopedProgressService.showWhile p delay w))
    = reporter_view
        (ScopedProgressService.doShowWhile delay
           (set_progressState
              (WhileProgressState (fst (ScopedProgressService.join_running p w))
                 (or_zero delay) (now w)) w)).
Proof.
  rewrite showWhile_steps. cbn zeta. rewrite promise_then_reporter.
  pose proof (join_running_reporter p w) as Hj.
  rewrite (doShowWhile_reporter delay _ _ w Hj).
  unfold Date_now. fields Hj. rewrite Hnow. reflexivity.
Qed.

(** An inactive reporter never calls its widget when the microtasks run. *)
Lemma run_job_inactive j w :
  isActive w = false →
  scopeId (run_job j w) = scopeId w ∧ isActive (run_job j w) = false
  ∧ progressbar (run_job j w) = progressbar w.
Proof.
  intros Hoff. unfold run_job.
  pose proof (settle_reporter (target j) Fulfilled (run_callback (handler j) w)) as Hs.
  fields Hs. rewrite Hscope, Hactive, Hbar.
  destruct (handler j) as [promise | | k | k]; cbn.
  - unfold ScopedProgressService.stop. cbn. rewrite Hoff. break_match; auto.
  - auto.
  - pose proof (all_resolve_element_reporter k w) as Hr. fields Hr.
    rewrite Hscope0, Hactive0, Hbar0. auto.
  - pose proof (settle_reporter k Rejected w) as Hr. fields Hr.
    rewrite Hscope0, Hactive0, Hbar0. auto.
Qed.

Lemma run_jobs_inactive fuel w :
  isActive w = false →
  scopeId (run_jobs fuel w) = scopeId w ∧ isActive (run_jobs fuel w) = false
  ∧ progressbar (run_jobs fuel w) = progressbar w.
Proof.
  revert w. induction fuel as [| fuel IH]; intros w Hoff; cbn; [auto |].
  destruct (jobs w) as [| j js]; [auto |].
  destruct (run_job_inactive j (set_jobs js w) Hoff) as (Hs & Ha & Hb).
  destruct (IH _ Ha) as (Hs' & Ha' & Hb').
  rewrite Hs', Ha', Hb', Hs, Hb. auto.
Qed.

Section Reactivation.
Context `{ProgressBar}.

(** Whatever is called on an inactive reporter, short of opening its
    scope, its widget receives nothing. *)
Lemma step_inactive e w :
  isActive w = false → not_opening e = true →
  scopeId (step e w) = scopeId w ∧ isActive (step e w) = false
  ∧ progressbar (step e w) = progressbar w.
Proof.
  intros Hoff Hev. destruct e; try discriminate; cbn [step]; auto.
  - pose proof (settle_external_reporter p o w) as Hr. fields Hr.
    rewrite Hscope, Hactive, Hbar. auto.
  - apply run_jobs_inactive. exact Hoff.
  - unfold ScopedProgressService.onScopeClosed. break_match; auto.
  - unfold ScopedProgressService.show. destruct arg; cbn; rewrite Hoff; auto.
  - unfold ScopedProgressService.handle_total. cbn. rewrite Hoff. auto.
  - unfold ScopedProgressService.handle_worked. rewrite Hoff. cbn.
    rewrite Hoff. auto.
  - unfold ScopedProgressService.handle_done. cbn. rewrite Hoff. auto.
  - pose proof (showWhile_reporter p delay w) as Hr.
    unfold ScopedProgressService.doShowWhile in Hr. cbn in Hr.
    rewrite Hoff in Hr. fields Hr. rewrite Hscope, Hactive, Hbar. auto.
  - destruct arg; auto.
  - unfold ProgressService.handle_worked. break_match; auto.
  - unfold ProgressService.showWhile.
    pose proof (promise_then_reporter p UnscopedStop UnscopedStop
                  (ubar (BarShow delay) (ubar BarInfinite w))) as Hr.
    fields Hr. rewrite Hscope, Hactive, Hbar. auto.
Qed.

Lemma run_inactive es w :
  isActive w = false → forallb not_opening es = true →
  scopeId (run es w) = scopeId w ∧ isActive (run es w) = false
  ∧ progressbar (run es w) = progressbar w.
Proof.
  revert w. induction es as [| e es IH]; intros w Hoff Hes; [cbn; auto |].
  change (run (e :: es) w) with (run es (step e w)).
  cbn in Hes. apply andb_true_iff in Hes as [He Hes].
  destruct (step_inactive e w Hoff He) as (Hs & Ha & Hb).
  destruct (IH _ Ha Hes) as (Hs' & Ha' & Hb').
  rewrite Hs', Ha', Hb', Hs, Hb. auto.
Qed.

(** Reactivation leaves the state as it is and re-issues it. *)
Lemma onScopeActivated_replays w :
  progressState (ScopedProgressService.onScopeActivated w) = progressState w
  ∧ isActive (ScopedProgressService.onScopeActivated w) = true
  ∧ progressbar (ScopedProgressService.onScopeActivated w)
    = progressbar w ++ spec_replay (now w) (progressState w).
Proof.
  unfold ScopedProgressService.onScopeActivated,
    ScopedProgressService.doShowWhile, Date_now. cbn.
  destruct (progressState w) as [| | | p a b | total worked] eqn:Hst; cbn;
    rewrite ?Hst.
  - rewrite app_nil_r. auto.
  - rewrite app_nil_r. auto.
  - rewrite <- app_assoc. auto.
  - replace (b - (now w - a))%Z with (a + b - now w)%Z by lia.
    destruct (0 <? b)%Z; cbn;
      [destruct (0 <? a + b - now w)%Z; cbn |];
      rewrite <- ?app_assoc; auto.
  - destruct total as [t|], worked as [k|]; cbn;
      try destruct (t =? 0)%Z; try destruct (k =? 0)%Z; cbn;
      rewrite ?Hst, <- ?app_assoc, ?app_nil_r; auto.
Qed.

(** C3, as the source has it — once the scope of a reporter is closed,
    whatever is called on it, its widget receives nothing until the
    scope is opened again; opening it then leaves the state untouched and
    re-issues it to the widget: exactly the calls of [spec_replay], added
    to what the widget had received before.  The widget is not brought
    back to what it would have been for a reporter that stayed active:
    the delay of the original [show] is not part of the replay. *)
Theorem deactivate_reactivate (w : World) (id : string) (es : list Event) :
  ScopedProgressService.same_scope id w = true →
  forallb not_opening es = true →
  let closed := run (ScopeClosed id :: es) w in
  let reopened := step (ScopeOpened id) closed in
  progressbar closed = progressbar w
  ∧ progressState reopened = progressState closed
  ∧ isActive reopened = true
  ∧ progressbar reopened
    = progressbar w ++ spec_replay (now closed) (progressState closed).
Proof.
  intros Hid Hes closed reopened.
  assert (isActive (step (ScopeClosed id) w) = false
          ∧ scopeId (step (ScopeClosed id) w) = scopeId w
          ∧ progressbar (step (ScopeClosed id) w) = progressbar w)
    as (Hoff & Hsc & Hb).
  { cbn. unfold ScopedProgressService.onScopeClosed. rewrite Hid. auto. }
  destruct (run_inactive es _ Hoff Hes) as (Hs' & Ha' & Hb').
  change (run es (step (ScopeClosed id) w)) with closed in *.
  assert (ScopedProgressService.same_scope id closed = true) as Hid'.
  { unfold ScopedProgressService.same_scope in *. rewrite Hs', Hsc. exact Hid. }
  subst reopened. cbn [step]. unfold ScopedProgressService.onScopeOpened.
  rewrite Hid'.
  destruct (onScopeActivated_replays closed) as (Hst & Hact & Hlog).
  rewrite Hst, Hact, Hlog, Hb', Hb. auto.
Qed.

End Reactivation.

Lemma deactivate_reactivate_witness :
  let w := run [Show (ArgNumber 10) (Some 1000%Z); HandleWorked 3] (panel true 0) in
  let closed := run (ScopeClosed "panel" :: [HandleWorked 4]) w in
  let reopened := step (ScopeOpened "panel") closed in
  progressbar closed = progressbar w
  ∧ progressState reopened = progressState closed
  ∧ isActive reopened = true
  ∧ progressbar reopened
    = progressbar w ++ spec_replay (now closed) (progressState closed).
Proof.
  apply (deactivate_reactivate
           (run [Show (ArgNumber 10) (Some 1000%Z); HandleWorked 3] (panel true 0))
           "panel" [HandleWorked 4]); reflexivity.
Defined.

(** C3 as stated fails: [show(true, 1000)] on an active reporter, then its
    scope closed and opened again.  The widget of a reporter that stayed
    active waits for its reveal until 1000; this one was told to reveal at
    once. *)
Lemma reopening_reveals_at_once :
  viewReveal
    (bar_view (progressbar (run [Show (ArgBoolean true) (Some 1000%Z)]
                                (panel true 0)))) = Some 1000%Z
  ∧ viewReveal
      (bar_view (progressbar (run [Show (ArgBoolean true) (Some 1000%Z);
                                   ScopeClosed "panel"; ScopeOpened "panel"]
                                  (panel true 0)))) = Some 0%Z
  ∧ progressbar (run [Show (ArgBoolean true) (Some 1000%Z);
                      ScopeClosed "panel"; ScopeOpened "panel"] (panel true 0))
    = [(0%Z, BarInfinite); (0%Z, BarShow (Some 1000%Z));
       (0%Z, BarInfinite); (0%Z, BarShow None)].
Proof. repeat split; reflexivity. Qed.

(** ** Total and worked *)


Section Work.
Context `{ProgressBar}.

Lemma handle_total_state n w :
  progressState (ScopedProgressService.handle_total n w)
    = WorkProgressState (Some n)
        match progressState w with
        | WorkProgressState _ worked => worked
        | _ => None
        end.
Proof.
  unfold ScopedProgressService.handle_total. cbn.
  destruct (isActive w); reflexivity.
Qed.







End Work.


(** The three calls of the witness leave total 20 and worked 3 + 4. *)
Example work_calls_example :
  progressState
    (run (work_event <$> [CallWorked 3; CallTotal 20; CallWorked 4])
         (run [Show (ArgNumber 10) None] (panel true 0)))
    = WorkProgressState (Some 20%Z) (Some 7%Z)
  ∧ running_sum
      (since_entry [CallWorked 3; CallTotal 20; CallWorked 4]
                   (run [Show (ArgNumber 10) None] (panel true 0)) (None, []))
    = Some 7%Z.
Proof. split; reflexivity. Qed.

(** A [worked] call can take the state out of [Work]: [show(0)] on an
    inactive reporter records [Work]; opening the scope replays nothing,
    zero being falsy, so the widget has no total; [worked(5)] then finds
    the reporter active and the widget without a total, and records
    [Infinite].  A later [total(7)] enters [Work] anew, and the sum starts
    again from there. *)
Example worked_in_work_state_can_fall_back :
  progressState (run [Show (ArgNumber 0) None; ScopeOpened "panel"] (panel false 0))
    = WorkProgressState (Some 0%Z) None
  ∧ progressState
      (run [Show (ArgNumber 0) None; ScopeOpened "panel"; HandleWorked 5]
           (panel false 0))
    = InfiniteProgressState
  ∧ progressState
      (run [Show (ArgNumber 0) None; ScopeOpened "panel"; HandleWorked 5;
            HandleTotal 7; HandleWorked 2] (panel false 0))
    = WorkProgressState (Some 7%Z) (Some 2%Z).
Proof. repeat split; reflexivity. Qed.

(** ** Two operations shown at once *)

Section Joined.
Context `{ProgressBar}.

(** C2, as the source has it — [showWhile(B)] called while [showWhile(A)]
    is pending records the join of the two.  When both operations are
    fulfilled, in either order: the promise returned for B is fulfilled
    only when both are; the promise returned for A is fulfilled as soon
    as A is, whether or not B still runs; and the widget is told to stop
    and hide once, at the clock of the second fulfilment, and not at all
    before (an inactive reporter never tells it).  Nothing is said here
    of an operation that is rejected. *)
Theorem joined_showWhile (sid : ScopeId) (active : bool)
        (t0 tA tB t1 t2 : Z) (dA dB : option Z) :
  let start :=
    run (joined_calls tA tB dA dB)
        (ScopedProgressService.constructor sid active (boot t0)) in
  let a_first := run (settles_at t1 0 Fulfilled) start in
  let a_then_b := run (settles_at t2 1 Fulfilled) a_first in
  let b_first := run (settles_at t1 1 Fulfilled) start in
  let b_then_a := run (settles_at t2 0 Fulfilled) b_first in
  let stopped :=
    if isActive start then [(t2, BarStop); (t2, BarHide)] else [] in
  progressState start = WhileProgressState 3 (or_zero dB) tB
  ∧ (status_of a_first 2 = Some (Settled Fulfilled)
     ∧ status_of a_first 1 = Some Pending
     ∧ status_of a_first 6 = Some Pending
     ∧ progressState a_first = progressState start
     ∧ progressbar a_first = progressbar start)
  ∧ (status_of a_then_b 6 = Some (Settled Fulfilled)
     ∧ progressState a_then_b = NoneProgressState
     ∧ progressbar a_then_b = progressbar start ++ stopped)
  ∧ (status_of b_first 2 = Some Pending
     ∧ status_of b_first 6 = Some Pending
     ∧ progressState b_first = progressState start
     ∧ progressbar b_first = progressbar start)
  ∧ (status_of b_then_a 2 = Some (Settled Fulfilled)
     ∧ status_of b_then_a 6 = Some (Settled Fulfilled)
     ∧ progressState b_then_a = NoneProgressState
     ∧ progressbar b_then_a = progressbar start ++ stopped).
Proof.
  destruct sid, active, dA, dB; vm_compute; repeat split; reflexivity.
Qed.

End Joined.

(** C2 as stated fails: A is fulfilled at 5 while B is still pending, and
    the promise returned for A is fulfilled then, without waiting for B. *)
Lemma first_future_does_not_wait :
  let w := run (joined_calls 0 0 None None ++ settles_at 5 0 Fulfilled)
               (panel true 0) in
  status_of w 1 = Some Pending
  ∧ status_of w 2 = Some (Settled Fulfilled).
Proof. vm_compute. split; reflexivity. Qed.

(** The example of the spec, A fulfilled at 10 and B rejected at 5:
    [Promise.all] rejects as soon as B does, so the widget is told to stop
    at 5, while A still runs, and again at 10. *)
Lemma rejection_stops_early :
  let at5 := run (joined_calls 0 0 None None ++ settles_at 5 1 Rejected)
                 (panel true 0) in
  let at10 := run (settles_at 10 0 Fulfilled) at5 in
  status_of at5 0 = Some Pending
  ∧ status_of at5 6 = Some (Settled Fulfilled)
  ∧ progressbar at5
    = [(0%Z, BarInfinite); (0%Z, BarShow None);
       (0%Z, BarInfinite); (0%Z, BarShow None);
       (5%Z, BarStop); (5%Z, BarHide)]
  ∧ progressbar at10 = progressbar at5 ++ [(10%Z, BarStop); (10%Z, BarHide)].
Proof. vm_compute. repeat split; reflexivity. Qed.

(** ** Scope events and activity *)

Lemma same_scope_matches id w :
  ScopedProgressService.same_scope id w = scope_matches (scopeId w) id.
Proof. reflexivity. Qed.

Lemma run_job_scope j w :
  scopeId (run_job j w) = scopeId w ∧ isActive (run_job j w) = isActive w.
Proof.
  unfold run_job.
  pose proof (settle_reporter (target j) Fulfilled (run_callback (handler j) w)) as Hs.
  fields Hs. rewrite Hscope, Hactive.
  destruct (handler j) as [promise | | k | k]; cbn.
  - unfold ScopedProgressService.stop. destruct w; cbn. break_match; auto.
  - auto.
  - pose proof (all_resolve_element_reporter k w) as Hr. fields Hr. auto.
  - pose proof (settle_reporter k Rejected w) as Hr. fields Hr. auto.
Qed.

Lemma run_jobs_scope fuel w :
  scopeId (run_jobs fuel w) = scopeId w ∧ isActive (run_jobs fuel w) = isActive w.
Proof.
  revert w. induction fuel as [| fuel IH]; intros w; cbn; [auto |].
  destruct (jobs w) as [| j js]; [auto |].
  destruct (run_job_scope j (set_jobs js w)) as [Hs Ha].
  destruct (IH (run_job j (set_jobs js w))) as [Hs' Ha'].
  rewrite Hs', Ha', Hs, Ha. auto.
Qed.

Section Activity.
Context `{ProgressBar}.

(** No event changes the scope id a reporter was constructed with. *)
Lemma step_scopeId e w : scopeId (step e w) = scopeId w.
Proof.
  destruct e; cbn [step]; try reflexivity.
  - pose proof (settle_external_reporter p o w) as Hr. fields Hr. auto.
  - apply run_jobs_scope.
  - unfold ScopedProgressService.onScopeOpened,
      ScopedProgressService.onScopeActivated,
      ScopedProgressService.doShowWhile. destruct w; cbn.
    break_match; reflexivity.
  - unfold ScopedProgressService.onScopeClosed. break_match; reflexivity.
  - unfold ScopedProgressService.show. destruct w; cbn. break_match; reflexivity.
  - unfold ScopedProgressService.handle_total. destruct w; cbn. break_match; reflexivity.
  - unfold ScopedProgressService.handle_worked. destruct w; cbn. break_match; reflexivity.
  - unfold ScopedProgressService.handle_done. destruct w; cbn. break_match; reflexivity.
  - pose proof (showWhile_reporter p delay w) as Hr. fields Hr. rewrite Hscope.
    unfold ScopedProgressService.doShowWhile. destruct w; cbn.
    break_match; reflexivity.
  - destruct arg; reflexivity.
  - unfold ProgressService.handle_worked. break_match; reflexivity.
  - unfold ProgressService.showWhile.
    pose proof (promise_then_reporter p UnscopedStop UnscopedStop
                  (ubar (BarShow delay) (ubar BarInfinite w))) as Hr.
    fields Hr. auto.
Qed.

(** Only the scope events of [onScopeOpened] and [onScopeClosed] change
    the activity, and only for the reporter's own id. *)
Lemma step_isActive e w :
  isActive (step e w)
    = match e with
      | ScopeOpened id => if scope_matches (scopeId w) id then true else isActive w
      | ScopeClosed id => if scope_matches (scopeId w) id then false else isActive w
      | _ => isActive w
      end.
Proof.
  destruct e; cbn [step]; try reflexivity.
  - pose proof (settle_external_reporter p o w) as Hr. fields Hr. auto.
  - apply run_jobs_scope.
  - unfold ScopedProgressService.onScopeOpened. rewrite same_scope_matches.
    destruct (scope_matches (scopeId w) id); [| reflexivity].
    apply onScopeActivated_replays.
  - unfold ScopedProgressService.onScopeClosed. rewrite same_scope_matches.
    destruct (scope_matches (scopeId w) id); reflexivity.
  - unfold ScopedProgressService.show. destruct w; cbn. break_match; reflexivity.
  - unfold ScopedProgressService.handle_total. destruct w; cbn. break_match; reflexivity.
  - unfold ScopedProgressService.handle_worked. destruct w; cbn. break_match; reflexivity.
  - unfold ScopedProgressService.handle_done. destruct w; cbn. break_match; reflexivity.
  - pose proof (showWhile_reporter p delay w) as Hr. fields Hr. rewrite Hactive.
    unfold ScopedProgressService.doShowWhile. destruct w; cbn.
    break_match; reflexivity.
  - destruct arg; reflexivity.
  - unfold ProgressService.handle_worked. break_match; reflexivity.
  - unfold ProgressService.showWhile.
    pose proof (promise_then_reporter p UnscopedStop UnscopedStop
                  (ubar (BarShow delay) (ubar BarInfinite w))) as Hr.
    fields Hr. auto.
Qed.

Lemma run_activity (es : list Event) (w : World) :
  isActive (run es w) = activity_after (scopeId w) es (isActive w)
  ∧ scopeId (run es w) = scopeId w.
Proof.
  revert w. induction es as [| e es IH]; intros w; [split; reflexivity |].
  change (run (e :: es) w) with (run es (step e w)).
  destruct (IH (step e w)) as [Ha Hs].
  rewrite Ha, Hs, step_scopeId, step_isActive. split; [| reflexivity].
  unfold activity_after. cbn [foldl]. destruct e; reflexivity.
Qed.

(** X1 — whatever happens to a reporter (calls, settlements, microtasks,
    scope events of any id), it is active exactly when the last scope event
    for its own id was an opening, or, if there was none, when it started
    active; scope events for other ids never count, and the id itself never
    changes. *)
Theorem activity_follows_own_scope (es : list Event) (w : World) :
  isActive (run es w) = activity_after (scopeId w) es (isActive w)
  ∧ scopeId (run es w) = scopeId w.
Proof. apply run_activity. Qed.

(** X2 — a reporter constructed without a scope id ([undefined] or [null])
    is active from the start and stays active for ever: no scope event, of
    whatever id, and nothing else deactivates it. *)
Theorem unscoped_service_always_active (active : bool) (es : list Event) (w : World) :
  isActive (run es (ScopedProgressService.constructor ScopeUndefined active w)) = true
  ∧ isActive (run es (ScopedProgressService.constructor ScopeNull active w)) = true.
Proof.
  assert (∀ es a, activity_after ScopeUndefined es a = a
                  ∧ activity_after ScopeNull es a = a) as Hkeep.
  { clear. intros es. unfold activity_after.
    induction es as [| e es IH]; intros a; [split; reflexivity |].
    cbn [foldl]. destruct e; cbn; apply IH. }
  split.
  - destruct (run_activity es
                (ScopedProgressService.constructor ScopeUndefined active w)) as [-> _].
    cbn. rewrite orb_true_r. apply Hkeep.
  - destruct (run_activity es
                (ScopedProgressService.constructor ScopeNull active w)) as [-> _].
    cbn. rewrite orb_true_r. apply Hkeep.
Qed.

End Activity.

(** ** A call made while a [showWhile] is pending *)

Section Superseded.
Context `{ProgressBar}.

Lemma supersedes_not_while e w :
  supersedes e = true → is_while (progressState (step e w)) = false.
Proof.
  destruct e; try discriminate; intros _; cbn [step].
  - unfold ScopedProgressService.show. destruct w, arg; cbn; break_match; reflexivity.
  - rewrite handle_total_state. reflexivity.
  - unfold ScopedProgressService.handle_worked. destruct w; cbn.
    break_match; reflexivity.
  - unfold ScopedProgressService.handle_done. destruct w; cbn.
    break_match; reflexivity.
Qed.



End Superseded.


(** ** The active scoped reporter and the unscoped one *)

Section Forwarding.
Context `{ProgressBar}.

(** One call: an active scoped reporter tells its widget what the
    unscoped reporter tells its own. *)
Lemma step_forwards e w1 w2 :
  plain_call e = true →
  isActive w1 = true → now w1 = now w2 → progressbar w1 = unscopedbar w2 →
  isActive (step e w1) = true
  ∧ now (step e w1) = now (step (to_unscoped e) w2)
  ∧ progressbar (step e w1) = unscopedbar (step (to_unscoped e) w2).
Proof.
  intros He Hact Hnow Hbar.
  destruct e; try discriminate; cbn [step to_unscoped].
  - cbn. auto.
  - cbn. auto.
  - unfold ScopedProgressService.show, ProgressService.show.
    destruct w1, w2, arg; cbn in *; subst; auto.
  - unfold ScopedProgressService.handle_total, ProgressService.handle_total.
    destruct w1, w2; cbn in *; subst; auto.
  - unfold ScopedProgressService.handle_worked, ProgressService.handle_worked.
    destruct w1, w2; cbn in *; subst. cbn.
    destruct (hasTotal unscopedbar1); cbn; auto.
  - unfold ScopedProgressService.handle_done, ProgressService.handle_done.
    destruct w1, w2; cbn in *; subst; auto.
  - pose proof (showWhile_reporter p delay w1) as Hr. fields Hr.
    rewrite Hactive, Hnow0, Hbar0.
    unfold ProgressService.showWhile.
    pose proof (promise_then_reporter p UnscopedStop UnscopedStop
                  (ubar (BarShow delay) (ubar BarInfinite w2))) as Hu.
    fields Hu. rewrite Hnow1, Hubar0.
    unfold ScopedProgressService.doShowWhile.
    destruct w1, w2; cbn in *; subst. cbn. rewrite <- !app_assoc. auto.
Qed.

Lemma run_forwards es w1 w2 :
  forallb plain_call es = true →
  isActive w1 = true → now w1 = now w2 → progressbar w1 = unscopedbar w2 →
  progressbar (run es w1) = unscopedbar (run (to_unscoped <$> es) w2).
Proof.
  revert w1 w2. induction es as [| e es IH]; intros w1 w2 Hes Hact Hnow Hbar.
  - exact Hbar.
  - cbn in Hes. apply andb_true_iff in Hes as [He Hes]. rewrite fmap_cons.
    change (run (e :: es) w1) with (run es (step e w1)).
    change (run (to_unscoped e :: (to_unscoped <$> es)) w2)
      with (run (to_unscoped <$> es) (step (to_unscoped e) w2)).
    destruct (step_forwards e w1 w2 He Hact Hnow Hbar) as (Ha & Hn & Hb).
    apply IH; assumption.
Qed.

(** X4 — as long as no promise settles and no scope changes, an active
    scoped reporter is the unscoped reporter as far as the widget can tell:
    for any sequence of [show], [showWhile] and handle calls, at whatever
    clock, its widget receives call for call what the widget of the
    unscoped reporter receives for the same calls, when the two widgets
    had received the same before. *)
Theorem active_scoped_forwards_like_unscoped (es : list Event) (w : World) :
  forallb plain_call es = true →
  isActive w = true →
  progressbar w = unscopedbar w →
  progressbar (run es w) = unscopedbar (run (to_unscoped <$> es) w).
Proof.
  intros Hes Hact Hbar. apply run_forwards; auto.
Qed.

End Forwarding.

Lemma active_scoped_forwards_like_unscoped_witness :
  let es := [Show (ArgNumber 10) (Some 5%Z); HandleWorked 3; Tick 2;
             ShowWhile 0 None; HandleWorked 4; HandleDone] in
  progressbar (run es one_pending) = unscopedbar (run (to_unscoped <$> es) one_pending).
Proof.
  apply (active_scoped_forwards_like_unscoped
           [Show (ArgNumber 10) (Some 5%Z); HandleWorked 3; Tick 2;
            ShowWhile 0 None; HandleWorked 4; HandleDone] one_pending);
    reflexivity.
Defined.

(** ** What a closed scope accumulates, and what opening it delivers *)

Section Closed.
Context `{ProgressBar}.

(** Only [Tick] moves the clock. *)
Lemma step_now e w :
  now (step e w) = match e with Tick t => t | _ => now w end.
Proof.
  destruct e; cbn [step]; try reflexivity.
  - pose proof (settle_external_reporter p o w) as Hr. fields Hr. auto.
  - unfold microtasks. generalize (work_left w) as fuel. intros fuel.
    revert w. induction fuel as [| fuel IH]; intros w; cbn; [reflexivity |].
    destruct (jobs w) as [| j js]; [reflexivity |]. rewrite IH.
    unfold run_job.
    pose proof (settle_reporter (target j) Fulfilled
                  (run_callback (handler j) (set_jobs js w))) as Hs.
    fields Hs. rewrite Hnow.
    destruct (handler j) as [promise | | k | k]; cbn.
    + unfold ScopedProgressService.stop. destruct w; cbn. break_match; reflexivity.
    + reflexivity.
    + pose proof (all_resolve_element_reporter k (set_jobs js w)) as Hr.
      fields Hr. auto.
    + pose proof (settle_reporter k Rejected (set_jobs js w)) as Hr.
      fields Hr. auto.
  - unfold ScopedProgressService.onScopeOpened,
      ScopedProgressService.onScopeActivated,
      ScopedProgressService.doShowWhile. destruct w; cbn.
    break_match; reflexivity.
  - unfold ScopedProgressService.onScopeClosed. break_match; reflexivity.
  - unfold ScopedProgressService.show. destruct w; cbn. break_match; reflexivity.
  - unfold ScopedProgressService.handle_total. destruct w; cbn.
    break_match; reflexivity.
  - unfold ScopedProgressService.handle_worked. destruct w; cbn.
    break_match; reflexivity.
  - unfold ScopedProgressService.handle_done. destruct w; cbn.
    break_match; reflexivity.
  - pose proof (showWhile_reporter p delay w) as Hr. fields Hr. rewrite Hnow.
    unfold ScopedProgressService.doShowWhile. destruct w; cbn.
    break_match; reflexivity.
  - destruct arg; reflexivity.
  - unfold ProgressService.handle_worked. break_match; reflexivity.
  - unfold ProgressService.showWhile.
    pose proof (promise_then_reporter p UnscopedStop UnscopedStop
                  (ubar (BarShow delay) (ubar BarInfinite w))) as Hr.
    fields Hr. auto.
Qed.





(** X6 — a [done()] on a closed scope never reaches the widget.  Whatever
    was called before it while the scope was closed, the widget has still
    received nothing when [done()] returns, and opening the scope replays
    nothing for [Done]: a widget that was showing progress when the scope
    closed is not told to stop. *)
Theorem done_on_closed_scope_is_not_delivered (w : World) (id : string)
        (es : list Event) :
  ScopedProgressService.same_scope id w = true →
  forallb not_opening es = true →
  let opened := run (ScopeClosed id :: es ++ [HandleDone; ScopeOpened id]) w in
  progressState opened = DoneProgressState
  ∧ isActive opened = true
  ∧ progressbar opened = progressbar w.
Proof.
  intros Hid Hes opened.
  set (w1 := step (ScopeClosed id) w).
  set (w2 := run es w1).
  set (w3 := step HandleDone w2).
  assert (opened = step (ScopeOpened id) w3) as ->.
  { unfold opened.
    change (run (ScopeClosed id :: es ++ [HandleDone; ScopeOpened id]) w)
      with (run (es ++ [HandleDone; ScopeOpened id]) w1).
    rewrite run_app. reflexivity. }
  assert (isActive w1 = false ∧ scopeId w1 = scopeId w
          ∧ progressbar w1 = progressbar w) as (Hoff1 & Hsc1 & Hb1).
  { unfold w1. cbn. unfold ScopedProgressService.onScopeClosed. rewrite Hid. auto. }
  clearbody w1.
  destruct (run_inactive es w1 Hoff1 Hes) as (Hsc2 & Hoff2 & Hb2).
  fold w2 in Hsc2, Hoff2, Hb2. clearbody w2.
  assert (isActive w3 = false ∧ scopeId w3 = scopeId w2
          ∧ progressbar w3 = progressbar w2
          ∧ progressState w3 = DoneProgressState) as (Hoff3 & Hsc3 & Hb3 & Hst3).
  { unfold w3. cbn. unfold ScopedProgressService.handle_done. cbn.
    rewrite Hoff2. auto. }
  clearbody w3.
  cbn [step]. unfold ScopedProgressService.onScopeOpened.
  rewrite same_scope_matches, Hsc3, Hsc2, Hsc1, <- same_scope_matches, Hid.
  destruct (onScopeActivated_replays w3) as (Hst & Hact & Hlog).
  rewrite Hst, Hact, Hlog, Hst3. cbn. rewrite app_nil_r. split; [auto |].
  split; [auto | congruence].
Qed.

(** X7 — opening a scope that is already open replays again:
    [onScopeActivated] does not look at [isActive], so every opening event
    for the reporter's id re-issues the recorded state to the widget. *)
Theorem opening_twice_replays_twice (w : World) (id : string) :
  ScopedProgressService.same_scope id w = true →
  let opened := run [ScopeOpened id; ScopeOpened id] w in
  progressState opened = progressState w
  ∧ progressbar opened
    = progressbar w ++ spec_replay (now w) (progressState w)
                    ++ spec_replay (now w) (progressState w).
Proof.
  intros Hid opened. subst opened.
  change (run [ScopeOpened id; ScopeOpened id] w)
    with (step (ScopeOpened id) (step (ScopeOpened id) w)).
  set (w1 := step (ScopeOpened id) w).
  assert (progressState w1 = progressState w
          ∧ progressbar w1 = progressbar w ++ spec_replay (now w) (progressState w))
    as (Hst1 & Hb1).
  { unfold w1. cbn [step]. unfold ScopedProgressService.onScopeOpened.
    rewrite Hid. destruct (onScopeActivated_replays w) as (? & _ & ?). auto. }
  assert (now w1 = now w) as Hn1 by (unfold w1; apply step_now).
  assert (scopeId w1 = scopeId w) as Hsc1 by (unfold w1; apply step_scopeId).
  clearbody w1.
  cbn [step]. unfold ScopedProgressService.onScopeOpened.
  rewrite same_scope_matches, Hsc1, <- same_scope_matches, Hid.
  destruct (onScopeActivated_replays w1) as (Hst & _ & Hlog).
  rewrite Hst, Hlog, Hst1, Hb1, Hn1, <- app_assoc. auto.
Qed.

End Closed.


Lemma done_on_closed_scope_is_not_delivered_witness :
  let w := run [Show (ArgBoolean true) None] (panel true 0) in
  let opened :=
    run (ScopeClosed "panel" :: [HandleWorked 2]
         ++ [HandleDone; ScopeOpened "panel"]) w in
  progressState opened = DoneProgressState
  ∧ isActive opened = true
  ∧ progressbar opened = progressbar w.
Proof.
  apply (done_on_closed_scope_is_not_delivered
           (run [Show (ArgBoolean true) None] (panel true 0)) "panel"
           [HandleWorked 2]); reflexivity.
Defined.

Lemma opening_twice_replays_twice_witness :
  let w := run [Show (ArgNumber 10) None; HandleWorked 3] (panel true 0) in
  let opened := run [ScopeOpened "panel"; ScopeOpened "panel"] w in
  progressState opened = progressState w
  ∧ progressbar opened
    = progressbar w ++ spec_replay (now w) (progressState w)
                    ++ spec_replay (now w) (progressState w).
Proof.
  apply (opening_twice_replays_twice
           (run [Show (ArgNumber 10) None; HandleWorked 3] (panel true 0)) "panel").
  reflexivity.
Defined.

(** ** What [showWhile] does when it is called *)

Lemma Promise_all_fresh a b w : fst (Promise_all a b w) = length (promises w).
Proof.
  unfold Promise_all.
  destruct (new_promise FromAll 2 w) as [j w1] eqn:Hnew.
  injection Hnew as <- _.
  destruct (promise_then a _ _ w1) as [d2 w2].
  destruct (promise_then b _ _ w2) as [d3 w3]. reflexivity.
Qed.

(** X8 — [showWhile] called at clock [now]: the state becomes a [While]
    holding [delay || 0] and [now], whatever the state was, so a join
    forgets the start and the delay of the operation it joins; the promise
    it tracks is the argument itself when no [While] was running and a
    promise that did not exist before, made by [Promise.all], when one was;
    and an active reporter starts its widget in indeterminate mode and
    reveals it with the new delay, on a join as on a first call, while an
    inactive one leaves the widget alone. *)
Theorem showWhile_effect (promise : PromiseId) (delay : option Z) (w : World) :
  let tracked := fst (ScopedProgressService.join_running promise w) in
  let w' := snd (ScopedProgressService.showWhile promise delay w) in
  progressState w' = WhileProgressState tracked (or_zero delay) (now w)
  ∧ match progressState w with
    | WhileProgressState _ _ _ =>
        promises w !! tracked = None ∧ origin_of w' tracked = Some FromAll
    | _ => tracked = promise
    end
  ∧ isActive w' = isActive w
  ∧ progressbar w'
    = (if isActive w
       then progressbar w ++ [(now w, BarInfinite); (now w, BarShow delay)]
       else progressbar w).
Proof.
  intros tracked w'. split; [apply showWhile_state |]. split.
  - unfold tracked, ScopedProgressService.join_running.
    destruct (progressState w) eqn:Hst; try reflexivity.
    rewrite Promise_all_fresh. split; [apply lookup_ge_None; lia |].
    apply origin_of_is.
    assert (grows (snd (Promise_all promise whilePromise w)) w') as Hg.
    { unfold w'. rewrite showWhile_steps. cbn zeta.
      eapply grows_trans; [| apply promise_then_grows].
      apply grows_store. rewrite doShowWhile_store.
      unfold ScopedProgressService.join_running. rewrite Hst. reflexivity. }
    eapply grows_origin_is; [exact Hg |].
    rewrite <- Promise_all_fresh with (a := promise) (b := whilePromise).
    apply Promise_all_origin.
  - pose proof (showWhile_reporter promise delay w) as Hr. fields Hr.
    unfold w'. rewrite Hactive, Hbar.
    unfold ScopedProgressService.doShowWhile. destruct w; cbn.
    destruct isActive0; cbn; rewrite <- ?app_assoc; auto.
Qed.

(** ** The unscoped reporter does not join *)

Section UnscopedPair.
Context `{ProgressBar}.

(** X9 — two operations shown at once on the unscoped reporter: each
    [showWhile] has its own [stop], so the widget is told to stop and hide
    when the first operation settles, fulfilled or rejected, although the
    second is still pending, and again when the second settles; both
    promises returned are fulfilled. *)
Theorem unscoped_showWhile_does_not_join (t0 tA tB t1 t2 : Z)
        (dA dB : option Z) (oA oB : Outcome) :
  let start := run (unscoped_calls tA tB dA dB) (boot t0) in
  let first := run (settles_at t1 0 oA) start in
  let both := run (settles_at t2 1 oB) first in
  unscopedbar start
    = [(tA, BarInfinite); (tA, BarShow dA); (tB, BarInfinite); (tB, BarShow dB)]
  ∧ status_of first 1 = Some Pending
  ∧ status_of first 2 = Some (Settled Fulfilled)
  ∧ status_of first 3 = Some Pending
  ∧ unscopedbar first = unscopedbar start ++ [(t1, BarStop); (t1, BarHide)]
  ∧ status_of both 3 = Some (Settled Fulfilled)
  ∧ unscopedbar both = unscopedbar first ++ [(t2, BarStop); (t2, BarHide)].
Proof.
  destruct dA, dB, oA, oB; vm_compute; repeat split; reflexivity.
Qed.

End UnscopedPair.

(** ** The remaining delay, with the clock above zero *)

(** X10 — [showWhile(p, delay)] called with the clock above zero, the scope
    closed and opened again [e] later while [p] is pending: the replay
    starts the widget in indeterminate mode and reveals it after what is
    left of the delay, [delay - e], or at once when nothing is left. *)
Theorem reopen_replays_remaining_delay (t0 delay e : Z) :
  (0 < t0)%Z →
  progressbar (reopen_during_delay t0 delay e)
    = [(t0, BarInfinite); (t0, BarShow (Some delay));
       ((t0 + e)%Z, BarInfinite);
       ((t0 + e)%Z,
        BarShow (if (0 <? delay - e)%Z then Some (delay - e)%Z else None))].
Proof.
  intros Hclock. unfold reopen_during_delay. cbn.
  unfold ScopedProgressService.onScopeOpened, ScopedProgressService.onScopeActivated,
    ScopedProgressService.doShowWhile. cbn. unfold Date_now. cbn.
  replace (t0 - (t0 + e - delay))%Z with (delay - e)%Z by lia.
  destruct (Z.ltb_spec 0 t0) as [_ | ?]; [| lia].
  reflexivity.
Qed.

Lemma reopen_replays_remaining_delay_witness :
  progressbar (reopen_during_delay 7 1000 400)
    = [(7%Z, BarInfinite); (7%Z, BarShow (Some 1000%Z));
       ((7 + 400)%Z, BarInfinite);
       ((7 + 400)%Z,
        BarShow (if (0 <? 1000 - 400)%Z then Some (1000 - 400)%Z else None))].
Proof.
  apply (reopen_replays_remaining_delay 7 1000 400). lia.
Defined.

(** ** A [While] state does not outlive its promise *)

Lemma settled_store w w' p :
  store_view w' = store_view w → settled w' p = settled w p.
Proof. unfold settled, status_of. intros [= -> _]. reflexivity. Qed.

Lemma armed_store w w' p : store_view w' = store_view w → armed w p → armed w' p.
Proof.
  intros Hst. pose proof (settled_store w w' p Hst) as Hs.
  injection Hst as Hp Hj. unfold armed. rewrite Hp, Hj, Hs. auto.
Qed.

Lemma new_promise_armed o n w p : armed w p → armed (snd (new_promise o n w)) p.
Proof.
  intros [(c & r & Hp & Hs & Hin) | (r & Hs & Hin)].
  - left. exists c, r. cbn. split; [apply lookup_app_l_Some; exact Hp | auto].
  - right. exists r. split; [| exact Hin].
    eapply grows_settled; [apply (new_promise_grows o n) | exact Hs].
Qed.

Lemma settle_armed q o w p : armed w p → armed (settle q o w) p.
Proof.
  intros Harmed.
  assert (settled w p = true → settled (settle q o w) p = true) as Hkeep
      by (apply grows_settled, settle_grows).
  revert Hkeep. unfold settle.
  destruct (promises w !! q) as [cq|] eqn:Hq; [| auto].
  destruct (status cq) eqn:Hsq; [| auto].
  intros Hkeep. destruct Harmed as [(c & r & Hp & Hs & Hin) | (r & Hs & Hin)].
  - destruct (decide (q = p)) as [-> | Hne].
    + replace cq with c in * by congruence. right. exists r. split.
      * unfold settled, status_of. cbn.
        rewrite list_lookup_insert_eq by (eapply lookup_lt_Some; eassumption).
        reflexivity.
      * cbn. apply elem_of_app. right. apply list_elem_of_fmap.
        exists (mkReaction (ScopedStop p) (ScopedStop p) r).
        split; [destruct o; reflexivity | exact Hin].
    + left. exists c, r. cbn.
      rewrite list_lookup_insert_ne by exact Hne. auto.
  - right. exists r. split; [exact (Hkeep Hs) |].
    cbn. apply elem_of_app. left. exact Hin.
Qed.

Lemma promise_then_armed q f g w p :
  armed w p → armed (snd (promise_then q f g w)) p.
Proof.
  intros Harmed. apply (new_promise_armed FromThen 0) in Harmed.
  unfold promise_then. destruct (new_promise FromThen 0 w) as [d w1].
  cbn in Harmed.
  destruct (promises w1 !! q) as [cq|] eqn:Hq; [| exact Harmed].
  destruct (status cq) eqn:Hsq; cbn.
  - set (c' := mkPromise Pending (reactions cq ++ [mkReaction f g d])
                         (origin cq) (remaining cq)).
    set (w2 := set_promises (<[q := c']> (promises w1)) w1).
    assert (grows w1 w2) as Hg.
    { eapply grows_insert; [reflexivity | eassumption | reflexivity |].
      cbn. intros o Ho. congruence. }
    destruct Harmed as [(c & r & Hp & Hs & Hin) | (r & Hs & Hin)].
    + left. destruct (decide (q = p)) as [-> | Hne].
      * assert (cq = c) as Heq by congruence. subst cq. exists c', r. cbn.
        rewrite list_lookup_insert_eq by (eapply lookup_lt_Some; eassumption).
        split; [reflexivity |]. split; [reflexivity |].
        apply elem_of_app. left. exact Hin.
      * exists c, r. cbn. rewrite list_lookup_insert_ne by exact Hne. auto.
    + right. exists r. split; [| exact Hin].
      eapply grows_settled; [exact Hg | exact Hs].
  - destruct Harmed as [(c & r & Hp & Hs & Hin) | (r & Hs & Hin)].
    + left. exists c, r. auto.
    + right. exists r. split; [exact Hs |]. cbn. apply elem_of_app. left. exact Hin.
Qed.

(** [then(stop, stop)] on an existing promise arms the [stop]. *)
Lemma promise_then_arms t w :
  is_Some (promises w !! t) →
  armed (snd (promise_then t (ScopedStop t) (ScopedStop t) w)) t.
Proof.
  intros [c Ht]. unfold promise_then.
  destruct (new_promise FromThen 0 w) as [d w1] eqn:Hnew.
  assert (promises w1 !! t = Some c) as Ht1.
  { injection Hnew as _ <-. cbn. apply lookup_app_l_Some. exact Ht. }
  rewrite Ht1. destruct (status c) eqn:Hs; cbn.
  - left. eexists _, d. cbn. split.
    + apply list_lookup_insert_eq. eapply lookup_lt_Some; eassumption.
    + split; [reflexivity |]. cbn. apply elem_of_app. right. apply list_elem_of_here.
  - right. exists d. split.
    + unfold settled, status_of. cbn. rewrite Ht1. cbn. rewrite Hs. reflexivity.
    + cbn. apply elem_of_app. right. destruct o; apply list_elem_of_here.
Qed.

Lemma all_resolve_element_armed j w p :
  armed w p → armed (all_resolve_element j w) p.
Proof.
  intros Harmed. unfold all_resolve_element.
  destruct (promises w !! j) as [cj|] eqn:Hj; [| exact Harmed].
  set (c' := mkPromise (status cj) (reactions cj) (origin cj) (pred (remaining cj))).
  set (w1 := set_promises (<[j := c']> (promises w)) w).
  assert (armed w1 p) as Harmed1.
  { assert (grows w w1) as Hg
        by (eapply grows_insert; [reflexivity | eassumption | reflexivity | auto]).
    destruct Harmed as [(c & r & Hp & Hs & Hin) | (r & Hs & Hin)].
    - left. destruct (decide (j = p)) as [-> | Hne].
      + assert (cj = c) as Heq by congruence. subst cj. exists c', r. cbn.
        rewrite list_lookup_insert_eq by (eapply lookup_lt_Some; eassumption).
        auto.
      + exists c, r. cbn. rewrite list_lookup_insert_ne by exact Hne. auto.
    - right. exists r. split; [| exact Hin].
      eapply grows_settled; [exact Hg | exact Hs]. }
  destruct (pred (remaining cj)); [| exact Harmed1].
  apply settle_armed. exact Harmed1.
Qed.

Lemma Promise_all_armed a b w p : armed w p → armed (snd (Promise_all a b w)) p.
Proof.
  intros Harmed. apply (new_promise_armed FromAll 2) in Harmed.
  unfold Promise_all. destruct (new_promise FromAll 2 w) as [j w1]. cbn in Harmed.
  apply (promise_then_armed a (AllResolveElement j) (AllReject j)) in Harmed.
  destruct (promise_then a _ _ w1) as [d2 w2]. cbn in Harmed.
  apply (promise_then_armed b (AllResolveElement j) (AllReject j)) in Harmed.
  destruct (promise_then b _ _ w2) as [d3 w3]. exact Harmed.
Qed.

Lemma run_callback_armed cb w p : armed w p → armed (run_callback cb w) p.
Proof.
  destruct cb; cbn;
    eauto using armed_store, stop_store, unscoped_stop_store,
      all_resolve_element_armed, settle_armed.
Qed.

Lemma run_job_armed j w p : armed w p → armed (run_job j w) p.
Proof. intros Harmed. apply settle_armed, run_callback_armed, Harmed. Qed.

(** What a job does to the state: a [stop] that is not stale makes it
    [None]; anything else leaves it. *)
Lemma run_job_state j w :
  progressState (run_job j w)
    = match handler j with
      | ScopedStop q =>
          match progressState w with
          | WhileProgressState p a b =>
              if negb (p =? q) then WhileProgressState p a b else NoneProgressState
          | _ => NoneProgressState
          end
      | _ => progressState w
      end.
Proof.
  unfold run_job.
  pose proof (settle_reporter (target j) Fulfilled (run_callback (handler j) w)) as Hs.
  fields Hs. rewrite Hstate.
  destruct (handler j) as [q | | k | k]; cbn.
  - unfold ScopedProgressService.stop. destruct w; cbn. break_match; reflexivity.
  - reflexivity.
  - pose proof (all_resolve_element_reporter k w) as Hr. fields Hr. auto.
  - pose proof (settle_reporter k Rejected w) as Hr. fields Hr. auto.
Qed.

Lemma pop_run_job_while_armed j js w :
  while_armed w → jobs w = j :: js → while_armed (run_job j (set_jobs js w)).
Proof.
  intros Hinv Hjobs p a b Hstate. rewrite run_job_state in Hstate.
  cbn [progressState set_jobs] in Hstate.
  assert (progressState w = WhileProgressState p a b
          ∧ handler j ≠ ScopedStop p) as [Hw Hother].
  { destruct (handler j) as [q | | k | k]; try (split; [exact Hstate | discriminate]).
    destruct (progressState w) as [| | | p' a' b' |]; try discriminate.
    destruct (Nat.eqb_spec p' q) as [-> | Hne]; cbn in Hstate; [discriminate |].
    injection Hstate as -> -> ->. split; [reflexivity | congruence]. }
  apply run_job_armed.
  destruct (Hinv p a b Hw) as [(c & r & Hp & Hs & Hin) | (r & Hs & Hin)].
  - left. exists c, r. auto.
  - right. exists r. split; [exact Hs |]. cbn.
    rewrite Hjobs in Hin. apply elem_of_cons in Hin as [Hhead | Htail];
      [| exact Htail].
    subst j. contradiction.
Qed.

Lemma run_jobs_while_armed fuel w : while_armed w → while_armed (run_jobs fuel w).
Proof.
  revert w. induction fuel as [| fuel IH]; intros w Hinv; cbn; [exact Hinv |].
  destruct (jobs w) as [| j js] eqn:Hjobs; [exact Hinv |].
  apply IH. apply pop_run_job_while_armed; assumption.
Qed.

Lemma while_armed_keep w w' :
  progressState w' = progressState w →
  (∀ p, armed w p → armed w' p) →
  while_armed w → while_armed w'.
Proof.
  intros Hst Hkeep Hinv p a b Hw. rewrite Hst in Hw. eauto.
Qed.

Lemma while_armed_not_while w : is_while (progressState w) = false → while_armed w.
Proof. intros Hnot p a b Hw. rewrite Hw in Hnot. discriminate. Qed.

Lemma showWhile_while_armed p delay w :
  is_Some (promises w !! p) →
  while_armed (snd (ScopedProgressService.showWhile p delay w)).
Proof.
  intros Hp q a b Hstate. rewrite showWhile_state in Hstate.
  injection Hstate as <- _ _. rewrite showWhile_steps. cbn zeta.
  apply promise_then_arms.
  pose proof (join_running_is_Some p w Hp) as Ht.
  assert (store_view
            (ScopedProgressService.doShowWhile delay
               (set_progressState
                  (WhileProgressState
                     (fst (ScopedProgressService.join_running p w))
                     (or_zero delay)
                     (Date_now (snd (ScopedProgressService.join_running p w))))
                  (snd (ScopedProgressService.join_running p w))))
          = store_view (snd (ScopedProgressService.join_running p w))) as Hst
      by (rewrite doShowWhile_store; reflexivity).
  injection Hst as -> _. exact Ht.
Qed.

Section Clearing.
Context `{ProgressBar}.

Lemma step_while_armed e w :
  match e with
  | ShowWhile p _ | UShowWhile p _ => p < length (promises w)
  | _ => True
  end →
  while_armed w → while_armed (step e w).
Proof.
  intros Hvalid Hinv. destruct e; cbn [step].
  - apply (while_armed_keep w); auto.
  - apply (while_armed_keep w); [reflexivity | | exact Hinv].
    intros p. apply new_promise_armed.
  - apply (while_armed_keep w); [| | exact Hinv].
    + pose proof (settle_external_reporter p o w) as Hr. fields Hr. auto.
    + intros q. unfold settle_external. break_match; auto using settle_armed.
  - apply run_jobs_while_armed. exact Hinv.
  - apply (while_armed_keep w); [| | exact Hinv].
    + unfold ScopedProgressService.onScopeOpened. break_match; [| reflexivity].
      apply onScopeActivated_replays.
    + intros p. apply armed_store. unfold ScopedProgressService.onScopeOpened.
      break_match; auto using onScopeActivated_store.
  - apply (while_armed_keep w); [| | exact Hinv].
    + unfold ScopedProgressService.onScopeClosed. break_match; reflexivity.
    + intros p. apply armed_store. unfold ScopedProgressService.onScopeClosed.
      break_match; reflexivity.
  - apply while_armed_not_while.
    apply (supersedes_not_while (Show arg delay)). reflexivity.
  - apply while_armed_not_while.
    apply (supersedes_not_while (HandleTotal n)). reflexivity.
  - apply while_armed_not_while.
    apply (supersedes_not_while (HandleWorked n)). reflexivity.
  - apply while_armed_not_while.
    apply (supersedes_not_while HandleDone). reflexivity.
  - apply showWhile_while_armed. apply lookup_lt_is_Some. exact Hvalid.
  - apply (while_armed_keep w); [destruct arg; reflexivity | | exact Hinv].
    intros p. apply armed_store. apply unscoped_show_store.
  - apply (while_armed_keep w); auto.
  - apply (while_armed_keep w); [| | exact Hinv].
    + unfold ProgressService.handle_worked. break_match; reflexivity.
    + intros p. apply armed_store. apply unscoped_handle_worked_store.
  - apply (while_armed_keep w); auto.
  - apply (while_armed_keep w); [| | exact Hinv].
    + unfold ProgressService.showWhile.
      pose proof (promise_then_reporter p UnscopedStop UnscopedStop
                    (ubar (BarShow delay) (ubar BarInfinite w))) as Hr.
      fields Hr. auto.
    + intros q Hq. unfold ProgressService.showWhile. apply promise_then_armed.
      eapply armed_store; [| exact Hq]. reflexivity.
Qed.

Lemma run_while_armed es w :
  promises_exist es w = true → while_armed w → while_armed (run es w).
Proof.
  revert w. induction es as [| e es IH]; intros w Hes Hinv; [exact Hinv |].
  change (run (e :: es) w) with (run es (step e w)).
  cbn [promises_exist] in Hes. apply andb_true_iff in Hes as [He Hes].
  apply IH; [exact Hes |]. apply step_while_armed; [| exact Hinv].
  destruct e; try exact I; apply Nat.ltb_lt; exact He.
Qed.

End Clearing.

(** Jobs leave the queue only when they are run. *)
Lemma settle_jobs q o w x : x ∈ jobs w → x ∈ jobs (settle q o w).
Proof.
  unfold settle. break_match; auto. cbn. intros Hx. apply elem_of_app. auto.
Qed.

Lemma all_resolve_element_jobs k w x :
  x ∈ jobs w → x ∈ jobs (all_resolve_element k w).
Proof.
  unfold all_resolve_element. break_match; auto.
  intros Hx. apply settle_jobs. exact Hx.
Qed.

Lemma run_job_jobs j w x : x ∈ jobs w → x ∈ jobs (run_job j w).
Proof.
  intros Hx. unfold run_job. apply settle_jobs.
  destruct (handler j) as [q | | k | k]; cbn.
  - pose proof (stop_store q w) as Hst. injection Hst as _ ->. exact Hx.
  - exact Hx.
  - apply all_resolve_element_jobs. exact Hx.
  - apply settle_jobs. exact Hx.
Qed.

(** While the microtasks run, the state is [None], or it is still the
    [While] for [p] and the [stop] for [p] is still queued. *)
Lemma run_jobs_clears p fuel w :
  progressState w = NoneProgressState
  ∨ (∃ a b r, progressState w = WhileProgressState p a b
              ∧ mkJob (ScopedStop p) r ∈ jobs w) →
  progressState (run_jobs fuel w) = NoneProgressState
  ∨ (∃ a b r, progressState (run_jobs fuel w) = WhileProgressState p a b
              ∧ mkJob (ScopedStop p) r ∈ jobs (run_jobs fuel w)).
Proof.
  revert w. induction fuel as [| fuel IH]; intros w Hinv; cbn; [exact Hinv |].
  remember (jobs w) as queue eqn:Hjobs. destruct queue as [| j js].
  { rewrite <- Hjobs. exact Hinv. }
  apply IH. rewrite run_job_state. cbn [progressState set_jobs].
  destruct Hinv as [Hnone | (a & b & r & Hw & Hin)].
  - left. rewrite Hnone. destruct (handler j); reflexivity.
  - rewrite Hw.
    apply elem_of_cons in Hin as [Hhead | Htail].
    + left. subst j. cbn. rewrite Nat.eqb_refl. reflexivity.
    + destruct (handler j) as [q | | k | k];
        try (right; exists a, b, r; split; [reflexivity |];
             apply run_job_jobs; exact Htail).
      destruct (Nat.eqb_spec p q) as [_ | _]; cbn; [left; reflexivity |].
      right. exists a, b, r. split; [reflexivity |].
      apply run_job_jobs. exact Htail.
Qed.

Section Cleared.
Context `{ProgressBar}.

(** X11 — a [While] state does not outlive its promise.  In any world a
    reporter can reach (every [showWhile] having been handed an existing
    promise), if the state is a [While] and the promise it tracks has
    settled, fulfilled or rejected, then the [stop] of that [showWhile] is
    in the queue: when the microtasks have run the state is [None] and the
    queue is empty. *)
Theorem while_cleared_when_promise_settled (sid : ScopeId) (active : bool)
        (t : Z) (es : list Event) (p : PromiseId) (a b : Z) :
  let w0 := ScopedProgressService.constructor sid active (boot t) in
  let w := run es w0 in
  promises_exist es w0 = true →
  progressState w = WhileProgressState p a b →
  settled w p = true →
  progressState (step Microtasks w) = NoneProgressState
  ∧ jobs (step Microtasks w) = [].
Proof.
  intros w0 w Hes Hstate Hsettled.
  assert (while_armed w) as Hinv.
  { apply run_while_armed; [exact Hes |]. apply while_armed_not_while. reflexivity. }
  split; [| apply microtasks_drains].
  assert (∃ r, mkJob (ScopedStop p) r ∈ jobs w) as [r Hin].
  { destruct (Hinv p a b Hstate) as [(c & r & Hp & Hs & _) | (r & _ & Hin)];
      [| eauto].
    unfold settled, status_of in Hsettled. rewrite Hp in Hsettled. cbn in Hsettled.
    rewrite Hs in Hsettled. discriminate. }
  cbn [step]. unfold microtasks.
  destruct (run_jobs_clears p (work_left w) w) as [Hnone | (a' & b' & r' & _ & Hin')].
  - right. eauto.
  - exact Hnone.
  - fold (microtasks w) in Hin'. rewrite microtasks_drains in Hin'. inversion Hin'.
Qed.

End Cleared.

Lemma while_cleared_when_promise_settled_witness :
  let es := [NewPromise; Tick 3; ShowWhile 0 (Some 100%Z); Microtasks;
             Tick 8; Settle 0 Rejected] in
  let w := run es (ScopedProgressService.constructor (ScopeString "panel") true (boot 0)) in
  progressState (step Microtasks w) = NoneProgressState
  ∧ jobs (step Microtasks w) = [].
Proof.
  apply (while_cleared_when_promise_settled (ScopeString "panel") true 0
           [NewPromise; Tick 3; ShowWhile 0 (Some 100%Z); Microtasks;
            Tick 8; Settle 0 Rejected] 0 100 3); reflexivity.
Defined.

(** ** The record does not depend on the activity *)

(** Same record in, same record out. *)
Ltac same_record H :=
  match type of H with
  | record_view ?w1 = record_view ?w2 =>
      destruct w1, w2; unfold record_view in *; cbn in H;
      injection H as -> -> -> -> -> ->
  end.

Lemma settle_record q o w1 w2 :
  record_view w1 = record_view w2 →
  record_view (settle q o w1) = record_view (settle q o w2).
Proof.
  intros Hr. same_record Hr. unfold settle. cbn. break_match; reflexivity.
Qed.

Lemma all_resolve_element_record k w1 w2 :
  record_view w1 = record_view w2 →
  record_view (all_resolve_element k w1) = record_view (all_resolve_element k w2).
Proof.
  intros Hr. unfold all_resolve_element.
  assert (promises w1 = promises w2) as Hp by (same_record Hr; reflexivity).
  rewrite Hp. destruct (promises w2 !! k) as [c|]; [| exact Hr].
  assert (record_view
            (set_promises
               (<[k := mkPromise (status c) (reactions c) (origin c)
                                 (pred (remaining c))]> (promises w2)) w1)
          = record_view
              (set_promises
                 (<[k := mkPromise (status c) (reactions c) (origin c)
                                   (pred (remaining c))]> (promises w2)) w2)) as Hr'
      by (same_record Hr; reflexivity).
  destruct (pred (remaining c)); [| exact Hr'].
  apply settle_record. exact Hr'.
Qed.

Lemma run_job_record j w1 w2 :
  record_view w1 = record_view w2 →
  record_view (run_job j w1) = record_view (run_job j w2).
Proof.
  intros Hr. unfold run_job. apply settle_record.
  destruct (handler j) as [q | | k | k]; cbn.
  - same_record Hr. unfold ScopedProgressService.stop. cbn.
    break_match; reflexivity.
  - same_record Hr. reflexivity.
  - apply all_resolve_element_record. exact Hr.
  - apply settle_record. exact Hr.
Qed.

Lemma run_jobs_record fuel w1 w2 :
  record_view w1 = record_view w2 →
  record_view (run_jobs fuel w1) = record_view (run_jobs fuel w2).
Proof.
  revert w1 w2. induction fuel as [| fuel IH]; intros w1 w2 Hr; cbn; [exact Hr |].
  assert (jobs w1 = jobs w2) as Hj by (same_record Hr; reflexivity).
  rewrite Hj. destruct (jobs w2) as [| j js]; [exact Hr |].
  apply IH, run_job_record. same_record Hr. reflexivity.
Qed.

Lemma promise_then_record q f g w1 w2 :
  record_view w1 = record_view w2 →
  fst (promise_then q f g w1) = fst (promise_then q f g w2)
  ∧ record_view (snd (promise_then q f g w1))
    = record_view (snd (promise_then q f g w2)).
Proof.
  intros Hr. same_record Hr. unfold promise_then. cbn.
  break_match; cbn; auto.
Qed.

Lemma Promise_all_record a b w1 w2 :
  record_view w1 = record_view w2 →
  fst (Promise_all a b w1) = fst (Promise_all a b w2)
  ∧ record_view (snd (Promise_all a b w1))
    = record_view (snd (Promise_all a b w2)).
Proof.
  intros Hr. rewrite !Promise_all_fresh.
  assert (promises w1 = promises w2) as Hp by (same_record Hr; reflexivity).
  split; [rewrite Hp; reflexivity |].
  unfold Promise_all.
  assert (record_view (snd (new_promise FromAll 2 w1))
          = record_view (snd (new_promise FromAll 2 w2))) as H1
      by (same_record Hr; reflexivity).
  assert (fst (new_promise FromAll 2 w1) = fst (new_promise FromAll 2 w2)) as Hj
      by (cbn; rewrite Hp; reflexivity).
  destruct (new_promise FromAll 2 w1) as [j1 u1].
  destruct (new_promise FromAll 2 w2) as [j2 u2]. cbn in H1, Hj. subst j2.
  destruct (promise_then_record a (AllResolveElement j1) (AllReject j1) u1 u2 H1)
    as [_ H2].
  destruct (promise_then a _ _ u1) as [d1 v1].
  destruct (promise_then a _ _ u2) as [d2 v2]. cbn in H2.
  destruct (promise_then_record b (AllResolveElement j1) (AllReject j1) v1 v2 H2)
    as [_ H3].
  destruct (promise_then b _ _ v1) as [e1 x1].
  destruct (promise_then b _ _ v2) as [e2 x2]. exact H3.
Qed.

Lemma showWhile_record p delay w1 w2 :
  record_view w1 = record_view w2 →
  record_view (snd (ScopedProgressService.showWhile p delay w1))
    = record_view (snd (ScopedProgressService.showWhile p delay w2)).
Proof.
  intros Hr. rewrite !showWhile_steps. cbn zeta.
  assert (fst (ScopedProgressService.join_running p w1)
          = fst (ScopedProgressService.join_running p w2)
          ∧ record_view (snd (ScopedProgressService.join_running p w1))
            = record_view (snd (ScopedProgressService.join_running p w2)))
    as [Ht Hj].
  { unfold ScopedProgressService.join_running.
    assert (progressState w1 = progressState w2) as Hs
        by (same_record Hr; reflexivity).
    rewrite Hs. destruct (progressState w2); auto.
    apply Promise_all_record. exact Hr. }
  rewrite Ht. apply promise_then_record.
  generalize dependent (snd (ScopedProgressService.join_running p w1)).
  generalize (snd (ScopedProgressService.join_running p w2)).
  intros u2 u1 Hu. clear Hr Ht. same_record Hu.
  unfold ScopedProgressService.doShowWhile, Date_now. cbn.
  break_match; reflexivity.
Qed.

Section Blind.
Context `{ProgressBar}.

Lemma step_record e w1 w2 :
  activity_blind e = true →
  record_view w1 = record_view w2 →
  record_view (step e w1) = record_view (step e w2).
Proof.
  intros He Hr. destruct e; try discriminate; cbn [step].
  - same_record Hr. reflexivity.
  - same_record Hr. reflexivity.
  - unfold settle_external.
    assert (promises w1 = promises w2) as Hp by (same_record Hr; reflexivity).
    rewrite Hp. break_match; auto using settle_record.
  - unfold microtasks.
    assert (work_left w1 = work_left w2) as Hw
        by (same_record Hr; reflexivity).
    rewrite Hw. apply run_jobs_record. exact Hr.
  - same_record Hr. unfold ScopedProgressService.show. cbn.
    break_match; reflexivity.
  - same_record Hr. unfold ScopedProgressService.handle_total. cbn.
    break_match; reflexivity.
  - same_record Hr. unfold ScopedProgressService.handle_done. cbn.
    break_match; reflexivity.
  - apply showWhile_record. exact Hr.
  - same_record Hr. destruct arg; reflexivity.
  - same_record Hr. reflexivity.
  - same_record Hr. unfold ProgressService.handle_worked. cbn.
    break_match; reflexivity.
  - same_record Hr. reflexivity.
  - unfold ProgressService.showWhile. apply promise_then_record.
    same_record Hr. reflexivity.
Qed.

(** X12 — what a reporter records does not depend on whether its scope is
    open.  Two reporters that differ only in their activity and in what
    their widgets received end with the same state, the same promises and
    the same queue after any sequence of [show], [total], [done] and
    [showWhile] calls, settlements and microtasks; only [worked], through
    its fallback, and the scope events look at the activity. *)
Theorem record_ignores_activity (es : list Event) (w1 w2 : World) :
  forallb activity_blind es = true →
  record_view w1 = record_view w2 →
  record_view (run es w1) = record_view (run es w2).
Proof.
  revert w1 w2. induction es as [| e es IH]; intros w1 w2 Hes Hr; [exact Hr |].
  cbn in Hes. apply andb_true_iff in Hes as [He Hes].
  change (run (e :: es) w1) with (run es (step e w1)).
  change (run (e :: es) w2) with (run es (step e w2)).
  apply IH; [exact Hes |]. apply step_record; assumption.
Qed.

End Blind.

Lemma record_ignores_activity_witness :
  let es := [NewPromise; Show (ArgNumber 10) None; HandleTotal 20;
             ShowWhile 0 (Some 50%Z); Microtasks; Tick 4;
             Settle 0 Fulfilled; Microtasks; HandleDone] in
  record_view (run es (panel true 0)) = record_view (run es (panel false 0)).
Proof.
  apply (record_ignores_activity
           [NewPromise; Show (ArgNumber 10) None; HandleTotal 20;
            ShowWhile 0 (Some 50%Z); Microtasks; Tick 4;
            Settle 0 Fulfilled; Microtasks; HandleDone]
           (panel true 0) (panel false 0)); reflexivity.
Defined.

(** The fallback is where the activity shows: the same two calls leave
    [Infinite] on an active reporter and [Work] on an inactive one. *)
Example worked_depends_on_activity :
  progressState (run [Show (ArgBoolean true) None; HandleWorked 5] (panel true 0))
    = InfiniteProgressState
  ∧ progressState (run [Show (ArgBoolean true) None; HandleWorked 5] (panel false 0))
    = WorkProgressState None (Some 5%Z).
Proof. split; reflexivity. Qed.

(** ** The replay does not ask the widget *)

Section Unchecked.
Context `{ProgressBar}.

(** X13 — the handle's [worked] never sends a worked amount to the widget
    of an active reporter that reports no total; the replay does.  After
    [show(true)] and [worked(n)] on a closed scope the state is [Work] with
    no total, and opening the scope sends [worked(n)] and a reveal to the
    widget without setting a total first and without asking [hasTotal]. *)
Theorem replay_sends_worked_without_total (w : World) (id : string) (b : bool)
        (delay : option Z) (n : Z) :
  ScopedProgressService.same_scope id w = true →
  n ≠ 0%Z →
  let closed := run [ScopeClosed id; Show (ArgBoolean b) delay; HandleWorked n] w in
  let opened := step (ScopeOpened id) closed in
  progressState closed = WorkProgressState None (Some n)
  ∧ progressbar closed = progressbar w
  ∧ progressbar opened
    = progressbar w ++ [(now w, BarWorked n); (now w, BarShow None)].
Proof.
  intros Hid Hn closed opened. subst opened closed.
  destruct w as [t ps js sid act st pb ub].
  unfold ScopedProgressService.same_scope in Hid. cbn in Hid.
  cbn. unfold ScopedProgressService.onScopeClosed,
    ScopedProgressService.same_scope. cbn. rewrite Hid. cbn.
  unfold ScopedProgressService.show. cbn.
  unfold ScopedProgressService.handle_worked. cbn.
  unfold ScopedProgressService.onScopeOpened,
    ScopedProgressService.same_scope. cbn. rewrite Hid.
  unfold ScopedProgressService.onScopeActivated. cbn.
  destruct (Z.eqb_spec n 0) as [-> | _]; [contradiction |]. cbn.
  rewrite <- app_assoc. auto.
Qed.

End Unchecked.

Lemma replay_sends_worked_without_total_witness :
  let w := panel true 0 in
  let closed :=
    run [ScopeClosed "panel"; Show (ArgBoolean true) None; HandleWorked 5] w in
  let opened := step (ScopeOpened "panel") closed in
  progressState closed = WorkProgressState None (Some 5%Z)
  ∧ progressbar closed = progressbar w
  ∧ progressbar opened
    = progressbar w ++ [(now w, BarWorked 5); (now w, BarShow None)].
Proof.
  apply (replay_sends_worked_without_total (panel true 0) "panel" true None 5);
    [reflexivity | lia].
Defined.

(** ** A rejected operation in a join *)

Section Rejected.
Context `{ProgressBar}.

(** X14 — [Promise.all] rejects as soon as one of its elements does, and
    [showWhile] hands [stop] to [then] for both outcomes.  With A and B
    joined: if B is rejected first, the promise returned for B is
    fulfilled, the state is reset and an active widget is told to stop
    while A is still pending, and again when A settles; if A is rejected
    first, the same happens at once although B is still pending, and
    nothing more when B settles. *)
Theorem rejection_ends_join_early (sid : ScopeId) (active : bool)
        (t0 tA tB t1 t2 : Z) (dA dB : option Z) (o : Outcome) :
  let start :=
    run (joined_calls tA tB dA dB)
        (ScopedProgressService.constructor sid active (boot t0)) in
  let b_rejected := run (settles_at t1 1 Rejected) start in
  let then_a := run (settles_at t2 0 o) b_rejected in
  let a_rejected := run (settles_at t1 0 Rejected) start in
  let then_b := run (settles_at t2 1 o) a_rejected in
  let stopped (t : Z) :=
    if isActive start then [(t, BarStop); (t, BarHide)] else [] in
  (status_of b_rejected 0 = Some Pending
   ∧ status_of b_rejected 6 = Some (Settled Fulfilled)
   ∧ progressState b_rejected = NoneProgressState
   ∧ progressbar b_rejected = progressbar start ++ stopped t1)
  ∧ (status_of then_a 2 = Some (Settled Fulfilled)
     ∧ progressbar then_a = progressbar start ++ stopped t1 ++ stopped t2)
  ∧ (status_of a_rejected 1 = Some Pending
     ∧ status_of a_rejected 2 = Some (Settled Fulfilled)
     ∧ status_of a_rejected 6 = Some (Settled Fulfilled)
     ∧ progressState a_rejected = NoneProgressState
     ∧ progressbar a_rejected = progressbar start ++ stopped t1)
  ∧ progressbar then_b = progressbar a_rejected.
Proof.
  destruct sid, active, dA, dB, o; vm_compute; repeat split; reflexivity.
Qed.

End Rejected.
